(** * CSearch: scan, sort and path lookup over a flat binary index

    A shallow embedding of [Sources/CSearch/CSearch.c].  The C code works on
    raw pointers, so the embedding keeps a flat byte-addressed memory and
    writes the pointer and integer arithmetic out with its wrap-around, for
    the 64-bit little-endian machines the code is built for.

    The three libc functions the code calls are treated as follows.
    [memcmp] is defined: the C standard fixes the sign of its result.
    [memmem] and [qsort_r] are parameters, constrained by the part of their
    contract that every implementation shares: what [memmem] answers for an
    empty needle and where [qsort_r] puts elements that compare equal differ
    between C libraries.  Module [Libc] has concrete functions within these
    contracts. *)

From Stdlib Require Import ZArith List Lia Bool Permutation Sorted.
From Stdlib Require Import Strings.Byte.
Import ListNotations.
Local Open Scope Z_scope.

(** ** Machine integers *)

Module CInt.

(** [size_t] and pointers are 64 bits wide. *)
Definition size_t (z : Z) : Z := z mod 2 ^ 64.

(** Conversion to the signed types, two's complement. *)
Definition int32_t (z : Z) : Z := (z + 2 ^ 31) mod 2 ^ 32 - 2 ^ 31.
Definition int64_t (z : Z) : Z := (z + 2 ^ 63) mod 2 ^ 64 - 2 ^ 63.

Definition INT32_MAX : Z := 2 ^ 31 - 1.

End CInt.

(** ** Memory *)

(** The address space: one byte at every address.  The index buffer, the
    records in it and the strings they reference all live here; nothing in
    the C code knows where the buffer ends. *)
Definition mem : Type := Z -> byte.

Definition ptr_add (p n : Z) : Z := CInt.size_t (p + n).

Definition load_uint8 (m : mem) (p : Z) : Z := Z.of_N (Byte.to_N (m p)).

(** Little-endian unsigned load of [n] bytes. *)
Fixpoint load_le (m : mem) (p : Z) (n : nat) : Z :=
  match n with
  | O => 0
  | S n' => load_uint8 m p + 256 * load_le m (ptr_add p 1) n'
  end.

Definition load_uint32 (m : mem) (p : Z) : Z := load_le m p 4.
Definition load_int64 (m : mem) (p : Z) : Z := CInt.int64_t (load_le m p 8).

(** The [n] bytes starting at [p]. *)
Definition load_bytes (m : mem) (p : Z) (n : Z) : list byte :=
  map (fun k => m (ptr_add p (Z.of_nat k))) (seq 0 (Z.to_nat n)).

(** ** IEEE-754 binary64 values, as far as [<] and [>] need them *)

(** A finite double is an integer multiple of 2^-1074; [FFinite s] stands for
    the value [s * 2^-1074], so both zeros are [FFinite 0]. *)
Inductive fpval : Type :=
| FNaN
| FNegInf
| FPosInf
| FFinite (scaled : Z).

Definition decode_double (bits : Z) : fpval :=
  let sign := Z.testbit bits 63 in
  let e := (bits / 2 ^ 52) mod 2 ^ 11 in
  let f := bits mod 2 ^ 52 in
  if e =? 2047 then
    if f =? 0 then (if sign then FNegInf else FPosInf) else FNaN
  else
    let mag := if e =? 0 then f else (2 ^ 52 + f) * 2 ^ (e - 1) in
    FFinite (if sign then - mag else mag).

Definition load_double (m : mem) (p : Z) : fpval := decode_double (load_le m p 8).

(** C's [<] on doubles: false as soon as one side is a NaN. *)
Definition fp_lt (x y : fpval) : bool :=
  match x, y with
  | FNaN, _ | _, FNaN => false
  | FNegInf, FNegInf => false
  | FNegInf, _ => true
  | _, FNegInf => false
  | FPosInf, _ => false
  | _, FPosInf => true
  | FFinite a, FFinite b => a <? b
  end.

(** ** libc *)

Definition byte_val (b : byte) : Z := Z.of_N (Byte.to_N b).

(** [memcmp(s1, s2, n)], given the [n] bytes behind each pointer: the
    difference of the first pair of bytes that differ, as unsigned chars. *)
Fixpoint memcmp (s1 s2 : list byte) : Z :=
  match s1, s2 with
  | x :: s1', y :: s2' =>
      if byte_val x =? byte_val y then memcmp s1' s2' else byte_val x - byte_val y
  | _, _ => 0
  end.

(** ** The source *)

Record SortContext : Type := {
  ctx_data_ptr : Z;
  ctx_item_base_offset : Z;
  ctx_item_record_size : Z;
  ctx_ascending : bool
}.

Definition get_item_ptr (ctx : SortContext) (index : Z) : Z :=
  ptr_add (ptr_add (ctx_data_ptr ctx) (ctx_item_base_offset ctx))
          (CInt.size_t (CInt.size_t index * ctx_item_record_size ctx)).

(** The body shared, up to the two field offsets, by [compare_indices_name]
    (20, 24) and [compare_indices_path] (28, 32). *)
Definition compare_indices_string (off_field len_field : Z)
    (m : mem) (ctx : SortContext) (idxA idxB : Z) : Z :=
  let ptrA := get_item_ptr ctx idxA in
  let ptrB := get_item_ptr ctx idxB in
  let offA := load_uint32 m (ptr_add ptrA off_field) in
  let lenA := load_uint32 m (ptr_add ptrA len_field) in
  let offB := load_uint32 m (ptr_add ptrB off_field) in
  let lenB := load_uint32 m (ptr_add ptrB len_field) in
  let strA := ptr_add (ctx_data_ptr ctx) offA in
  let strB := ptr_add (ctx_data_ptr ctx) offB in
  let minLen := if lenA <? lenB then lenA else lenB in
  let cmp := memcmp (load_bytes m strA minLen) (load_bytes m strB minLen) in
  let cmp :=
    if cmp =? 0 then
      if lenA <? lenB then -1
      else if lenA >? lenB then 1
      else cmp
    else cmp in
  if ctx_ascending ctx then cmp else CInt.int32_t (- cmp).

Definition compare_indices_name : mem -> SortContext -> Z -> Z -> Z :=
  compare_indices_string 20 24.

Definition compare_indices_path : mem -> SortContext -> Z -> Z -> Z :=
  compare_indices_string 28 32.

Definition compare_indices_size (m : mem) (ctx : SortContext) (idxA idxB : Z) : Z :=
  let ptrA := get_item_ptr ctx idxA in
  let ptrB := get_item_ptr ctx idxB in
  let valA := load_int64 m (ptr_add ptrA 0) in
  let valB := load_int64 m (ptr_add ptrB 0) in
  if valA <? valB then (if ctx_ascending ctx then -1 else 1)
  else if valA >? valB then (if ctx_ascending ctx then 1 else -1)
  else 0.

Definition compare_indices_date (m : mem) (ctx : SortContext) (idxA idxB : Z) : Z :=
  let ptrA := get_item_ptr ctx idxA in
  let ptrB := get_item_ptr ctx idxB in
  let valA := load_double m (ptr_add ptrA 8) in
  let valB := load_double m (ptr_add ptrB 8) in
  if fp_lt valA valB then (if ctx_ascending ctx then -1 else 1)
  else if fp_lt valB valA then (if ctx_ascending ctx then 1 else -1)
  else 0.

(** [SearchSortKey] is a C enum, so a caller can pass any [int]. *)
Definition SORT_KEY_NAME : Z := 0.
Definition SORT_KEY_PATH : Z := 1.
Definition SORT_KEY_SIZE : Z := 2.
Definition SORT_KEY_DATE : Z := 3.

(** The [switch] of [perform_index_sort]; [None] is the [NULL] comparator. *)
Definition select_compar (key : Z) : option (mem -> SortContext -> Z -> Z -> Z) :=
  if key =? SORT_KEY_NAME then Some compare_indices_name
  else if key =? SORT_KEY_PATH then Some compare_indices_path
  else if key =? SORT_KEY_SIZE then Some compare_indices_size
  else if key =? SORT_KEY_DATE then Some compare_indices_date
  else None.

(** [results_buffer[k] = v] on an [int32_t] array seen as a map from slot
    number to value; the C code never checks [k] against a capacity. *)
Definition store_slot (buf : Z -> Z) (k v : Z) : Z -> Z :=
  fun j => if j =? k then v else buf j.

(** The functions that call into libc take the libc function as a
    parameter.  [memmem] gets the haystack and needle bytes and returns the
    offset of the occurrence it found, [None] standing for [NULL];
    [qsort_r] gets the comparator, already applied to the thunk, and the
    array contents.  The query and the target path are byte sequences with
    their length, so they are lists of bytes. *)
Section Source.

Variable memmem : list byte -> list byte -> option Z.
Variable qsort_r : (Z -> Z -> Z) -> list Z -> list Z.

Variable m : mem.

Section Scan.

Variables (data_ptr item_base_offset item_record_size : Z).
Variables (start_index end_index : Z).
Variable query : list byte.

(** The [for] loop of [perform_search_scan], from [i] on, with the current
    [match_count] and output array.  The increment of the [int32_t] counter
    and the conversion of the [size_t] index are written with the
    two's-complement wrap-around the target machines give them. *)
Fixpoint scan_loop (fuel : nat) (i match_count : Z) (results_buffer : Z -> Z)
  : Z * (Z -> Z) :=
  match fuel with
  | O => (match_count, results_buffer)
  | S fuel' =>
      if i <? end_index then
        let items_start := ptr_add data_ptr item_base_offset in
        let offset := CInt.size_t (i * item_record_size) in
        let item_ptr := ptr_add items_start offset in
        let lower_name_offset := load_uint32 m (ptr_add item_ptr 36) in
        let lower_name_len := load_uint32 m (ptr_add item_ptr 40) in
        let name_ptr := ptr_add data_ptr lower_name_offset in
        match memmem (load_bytes m name_ptr lower_name_len) query with
        | Some _ =>
            scan_loop fuel' (i + 1) (CInt.int32_t (match_count + 1))
                      (store_slot results_buffer match_count (CInt.int32_t i))
        | None => scan_loop fuel' (i + 1) match_count results_buffer
        end
      else (match_count, results_buffer)
  end.

(** Returns the match count and the output array after the call.  The loop
    runs [end_index - start_index] times when that is positive and not at
    all otherwise, so this much fuel lets it leave through its condition. *)
Definition perform_search_scan (results_buffer : Z -> Z) : Z * (Z -> Z) :=
  scan_loop (Z.to_nat (end_index - start_index)) start_index 0 results_buffer.

End Scan.

(** Sorts the first [count] entries of [indices] in place; the result is the
    array after the call.  In the source [count] is a [size_t] no larger
    than the array.  Outside that range this definition takes a negative
    number as 0 and a larger one as the length of the array, which is not
    what the C call does there. *)
Definition perform_index_sort (indices : list Z) (count : Z)
    (data_ptr item_base_offset item_record_size : Z) (key : Z) (ascending : bool)
  : list Z :=
  let ctx := {| ctx_data_ptr := data_ptr;
                ctx_item_base_offset := item_base_offset;
                ctx_item_record_size := item_record_size;
                ctx_ascending := ascending |} in
  match select_compar key with
  | Some compar =>
      qsort_r (compar m ctx) (firstn (Z.to_nat count) indices)
        ++ skipn (Z.to_nat count) indices
  | None => indices
  end.

Section Lookup.

Variables (data_ptr item_base_offset item_record_size count : Z).
Variable target_path : list byte.

(** The [for] loop of [perform_path_lookup], from [i] on. *)
Fixpoint lookup_loop (fuel : nat) (i : Z) : Z :=
  match fuel with
  | O => -1
  | S fuel' =>
      if i <? count then
        let items_start := ptr_add data_ptr item_base_offset in
        let target_len := Z.of_nat (length target_path) in
        let offset := CInt.size_t (i * item_record_size) in
        let item_ptr := ptr_add items_start offset in
        let path_offset := load_uint32 m (ptr_add item_ptr 28) in
        let path_len := load_uint32 m (ptr_add item_ptr 32) in
        if negb (path_len =? target_len) then lookup_loop fuel' (i + 1)
        else
          let path_ptr := ptr_add data_ptr path_offset in
          if memcmp (load_bytes m path_ptr target_len) target_path =? 0
          then CInt.int32_t i
          else lookup_loop fuel' (i + 1)
      else -1
  end.

Definition perform_path_lookup : Z := lookup_loop (Z.to_nat count) 0.

End Lookup.

End Source.

(** ** Record view: the data model of the index buffer *)

Section RecordView.

Variable m : mem.
Variables (data_ptr item_base_offset item_record_size : Z).

(** Start of record [i]. *)
Definition record_ptr (i : Z) : Z :=
  ptr_add (ptr_add data_ptr item_base_offset) (CInt.size_t (i * item_record_size)).

(** The string a record references through an (offset, length) pair of
    [uint32] fields. *)
Definition string_field (off_field len_field : Z) (i : Z) : list byte :=
  load_bytes m
    (ptr_add data_ptr (load_uint32 m (ptr_add (record_ptr i) off_field)))
    (load_uint32 m (ptr_add (record_ptr i) len_field)).

Definition record_size (i : Z) : Z := load_int64 m (ptr_add (record_ptr i) 0).
Definition record_modified (i : Z) : fpval := load_double m (ptr_add (record_ptr i) 8).
Definition record_name : Z -> list byte := string_field 20 24.
Definition record_path : Z -> list byte := string_field 28 32.
Definition record_lower_name : Z -> list byte := string_field 36 40.

End RecordView.

(** ** Orders and containment, as the specification words them *)

(** [needle] is a contiguous subsequence of [hay]. *)
Definition occurs (needle hay : list byte) : Prop :=
  exists pre suf, hay = pre ++ needle ++ suf.

(** Byte-wise lexicographic order; a proper prefix sorts first. *)
Fixpoint bytes_compare (a b : list byte) : comparison :=
  match a, b with
  | [], [] => Eq
  | [], _ :: _ => Lt
  | _ :: _, [] => Gt
  | x :: a', y :: b' =>
      match byte_val x ?= byte_val y with
      | Eq => bytes_compare a' b'
      | c => c
      end
  end.

Definition bytes_le (a b : list byte) : Prop := bytes_compare a b <> Gt.

Definition is_nan (x : fpval) : bool :=
  match x with FNaN => true | _ => false end.

(** Numeric [<=] on doubles. *)
Definition fp_le (x y : fpval) : Prop :=
  match x, y with
  | FNaN, _ | _, FNaN => False
  | FNegInf, _ => True
  | _, FNegInf => False
  | _, FPosInf => True
  | FPosInf, _ => False
  | FFinite a, FFinite b => a <= b
  end.

Section KeyOrder.

Variable m : mem.
Variables (data_ptr item_base_offset item_record_size : Z).

(** Record [i]'s key is at most record [j]'s, in the order of [key]. *)
Definition key_le (key : Z) (i j : Z) : Prop :=
  if key =? SORT_KEY_NAME then
    bytes_le (record_name m data_ptr item_base_offset item_record_size i)
             (record_name m data_ptr item_base_offset item_record_size j)
  else if key =? SORT_KEY_PATH then
    bytes_le (record_path m data_ptr item_base_offset item_record_size i)
             (record_path m data_ptr item_base_offset item_record_size j)
  else if key =? SORT_KEY_SIZE then
    record_size m data_ptr item_base_offset item_record_size i
      <= record_size m data_ptr item_base_offset item_record_size j
  else
    fp_le (record_modified m data_ptr item_base_offset item_record_size i)
          (record_modified m data_ptr item_base_offset item_record_size j).

(** The order a sorted array shows between an earlier and a later entry. *)
Definition key_ordered (key : Z) (ascending : bool) (i j : Z) : Prop :=
  if ascending then key_le key i j else key_le key j i.

(** No record named by the array has a NaN modification time. *)
Definition no_nan_dates (indices : list Z) : Prop :=
  forall i, In i indices ->
    is_nan (record_modified m data_ptr item_base_offset item_record_size i) = false.

End KeyOrder.

Definition valid_sort_key (key : Z) : Prop :=
  key = SORT_KEY_NAME \/ key = SORT_KEY_PATH \/ key = SORT_KEY_SIZE \/ key = SORT_KEY_DATE.

(** ** What the code relies on from libc *)

(** For a needle that is not empty, [memmem] finds it exactly when it occurs.
    What it answers for an empty needle differs between C libraries. *)
Definition memmem_contract (memmem : list byte -> list byte -> option Z) : Prop :=
  forall hay needle, needle <> [] -> (memmem hay needle <> None <-> occurs needle hay).

(** A comparator the C standard lets one hand to a sorting function: its
    answers on the array's elements are consistent with a total order. *)
Definition consistent_on (cmp : Z -> Z -> Z) (l : list Z) : Prop :=
  (forall a b, In a l -> In b l -> Z.sgn (cmp b a) = - Z.sgn (cmp a b)) /\
  (forall a b c, In a l -> In b l -> In c l ->
     cmp a b <= 0 -> cmp b c <= 0 -> cmp a c <= 0).

Definition sorted_by (cmp : Z -> Z -> Z) (l : list Z) : Prop :=
  StronglySorted (fun a b => cmp a b <= 0) l.

(** [qsort_r] only moves elements around, sorts whenever the comparator is
    consistent, and learns about the elements through the comparator's
    answers on pairs of them only.  The order of elements that compare
    equal is left open. *)
Record qsort_r_contract (qsort_r : (Z -> Z -> Z) -> list Z -> list Z) : Prop := {
  qsort_r_permutes : forall cmp l, Permutation l (qsort_r cmp l);
  qsort_r_sorts : forall cmp l, consistent_on cmp l -> sorted_by cmp (qsort_r cmp l);
  qsort_r_local : forall cmp1 cmp2 l,
    (forall a b, In a l -> In b l -> cmp1 a b = cmp2 a b) ->
    qsort_r cmp1 l = qsort_r cmp2 l
}.

(** ** Buffers *)

(** The buffer is the region of [buf_len] bytes at [data_ptr]. *)
Definition buffer_ok (data_ptr buf_len : Z) : Prop :=
  0 <= data_ptr /\ 0 <= buf_len /\ data_ptr + buf_len <= 2 ^ 64.

Definition agree_on (m1 m2 : mem) (data_ptr buf_len : Z) : Prop :=
  forall a, data_ptr <= a < data_ptr + buf_len -> m1 a = m2 a.

Section WellFormed.

Variable m : mem.
Variables (data_ptr buf_len item_base_offset item_record_size : Z).

(** The span an (offset, length) field pair of record [i] names lies in the
    buffer. *)
Definition span_in_buffer (off_field len_field i : Z) : Prop :=
  load_uint32 m (ptr_add (record_ptr data_ptr item_base_offset item_record_size i) off_field)
  + load_uint32 m (ptr_add (record_ptr data_ptr item_base_offset item_record_size i) len_field)
  <= buf_len.

(** Record [i] with its 44 bytes of fields lies in the buffer, and so do its
    three strings. *)
Definition record_ok (i : Z) : Prop :=
  0 <= i /\
  item_base_offset + i * item_record_size + 44 <= buf_len /\
  span_in_buffer 20 24 i /\ span_in_buffer 28 32 i /\ span_in_buffer 36 40 i.

Definition layout_ok : Prop :=
  buffer_ok data_ptr buf_len /\ 0 <= item_base_offset /\ 0 <= item_record_size.

End WellFormed.

(** ** Two C libraries *)

Module Libc.

(** [needle] is a prefix of [hay]. *)
Fixpoint starts_with (needle hay : list byte) : bool :=
  match needle, hay with
  | [], _ => true
  | _ :: _, [] => false
  | x :: needle', y :: hay' => (byte_val x =? byte_val y) && starts_with needle' hay'
  end.

(** Offset of the first occurrence of [needle] in [hay], counted from [pos]. *)
Fixpoint first_occurrence (needle hay : list byte) (pos : Z) : option Z :=
  if starts_with needle hay then Some pos
  else match hay with
       | [] => None
       | _ :: hay' => first_occurrence needle hay' (pos + 1)
       end.

(** The [memmem] of the BSD family, the one macOS ships; the source names
    macOS as its target where it calls [qsort_r], and uses the argument
    order [qsort_r] has there.  By its manual this [memmem] returns [NULL]
    if the haystack is shorter than the needle, if the needle length is 0,
    if the haystack length is 0, or if the needle occurs nowhere in the
    haystack.  So an empty needle is never found. *)
Definition memmem_bsd (hay needle : list byte) : option Z :=
  match hay, needle with
  | [], _ => None
  | _, [] => None
  | _, _ => first_occurrence needle hay 0
  end.

(** The [memmem] of glibc and musl: an empty needle is found at offset 0. *)
Definition memmem_gnu (hay needle : list byte) : option Z :=
  first_occurrence needle hay 0.

(** A sorting function within the contract of [qsort_r]: insertion sort that
    puts an element behind the elements it compares equal to.  It is not the
    sort of any C library; it serves where the sorted arrangement is unique,
    to show that the hypotheses of a theorem can be met. *)
Fixpoint insert_behind (cmp : Z -> Z -> Z) (x : Z) (l : list Z) : list Z :=
  match l with
  | [] => [x]
  | y :: l' => if cmp x y <? 0 then x :: y :: l' else y :: insert_behind cmp x l'
  end.

Definition qsort_r_insertion (cmp : Z -> Z -> Z) (l : list Z) : list Z :=
  fold_right (insert_behind cmp) [] l.

(** The quicksort of the BSD libc, after Bentley and McIlroy, from which the
    [qsort_r] of macOS derives.  Positions are indices into the array; [lo]
    is the start of the part being sorted and [n] its length.  macOS adds a
    bound on the recursion depth and on the insertion sort taken when the
    partition moved nothing; a first call in which every element compares
    equal to the pivot reaches neither. *)

Fixpoint set_nth (i : nat) (v : Z) (a : list Z) : list Z :=
  match a, i with
  | [], _ => []
  | _ :: a', O => v :: a'
  | x :: a', S i' => x :: set_nth i' v a'
  end.

(** [swap(a + i, a + j)]; the algorithm only exchanges elements of the
    array. *)
Definition swap (a : list Z) (i j : nat) : list Z :=
  match nth_error a i, nth_error a j with
  | Some x, Some y => set_nth i y (set_nth j x a)
  | _, _ => a
  end.

Section Quicksort.

Variable cmp : Z -> Z -> Z.

Definition cmp_at (a : list Z) (i j : nat) : Z := cmp (nth i a 0) (nth j a 0).

(** [for (pl = pm; pl > a && cmp(pl - es, pl) > 0; pl -= es) swap(pl, pl - es)] *)
Fixpoint sift (fuel : nat) (a : list Z) (lo pl : nat) : list Z :=
  match fuel with
  | O => a
  | S fuel' =>
      if (lo <? pl)%nat && (cmp_at a (pl - 1) pl >? 0)
      then sift fuel' (swap a pl (pl - 1)) lo (pl - 1)
      else a
  end.

(** The insertion sort used below 7 elements and when the partition moved
    nothing. *)
Definition insertion (a : list Z) (lo n : nat) : list Z :=
  fold_left (fun a pm => sift n a lo pm) (seq (lo + 1) (n - 1)) a.

Definition med3 (a : list Z) (i j k : nat) : nat :=
  if cmp_at a i j <? 0
  then (if cmp_at a j k <? 0 then j else if cmp_at a i k <? 0 then k else i)
  else (if cmp_at a j k >? 0 then j else if cmp_at a i k <? 0 then i else k).

(** [while (pb <= pc && (r = cmp(pb, a)) <= 0)]: elements equal to the pivot
    are moved to the left end. *)
Fixpoint partition_up (fuel : nat) (a : list Z) (lo pa pb pc : nat) (swapped : bool)
  : list Z * nat * nat * bool :=
  match fuel with
  | O => (a, pa, pb, swapped)
  | S fuel' =>
      if (pb <=? pc)%nat && (cmp_at a pb lo <=? 0) then
        if cmp_at a pb lo =? 0
        then partition_up fuel' (swap a pa pb) lo (pa + 1) (pb + 1) pc true
        else partition_up fuel' a lo pa (pb + 1) pc swapped
      else (a, pa, pb, swapped)
  end.

(** [while (pb <= pc && (r = cmp(pc, a)) >= 0)]: elements equal to the pivot
    are moved to the right end. *)
Fixpoint partition_down (fuel : nat) (a : list Z) (lo pb pc pd : nat) (swapped : bool)
  : list Z * nat * nat * bool :=
  match fuel with
  | O => (a, pc, pd, swapped)
  | S fuel' =>
      if (pb <=? pc)%nat && (cmp_at a pc lo >=? 0) then
        if cmp_at a pc lo =? 0
        then partition_down fuel' (swap a pc pd) lo pb (pc - 1) (pd - 1) true
        else partition_down fuel' a lo pb (pc - 1) pd swapped
      else (a, pc, pd, swapped)
  end.

(** The [for (;;)] loop around the two. *)
Fixpoint partition (fuel n : nat) (a : list Z) (lo pa pb pc pd : nat) (swapped : bool)
  : list Z * nat * nat * nat * nat * bool :=
  match fuel with
  | O => (a, pa, pb, pc, pd, swapped)
  | S fuel' =>
      let '(a, pa, pb, swapped) := partition_up n a lo pa pb pc swapped in
      let '(a, pc, pd, swapped) := partition_down n a lo pb pc pd swapped in
      if (pc <? pb)%nat then (a, pa, pb, pc, pd, swapped)
      else partition fuel' n (swap a pb pc) lo pa (pb + 1) (pc - 1) pd true
  end.

(** [vecswap(a + i, a + j, r)]: exchange [r] elements. *)
Fixpoint vecswap (a : list Z) (i j r : nat) : list Z :=
  match r with
  | O => a
  | S r' => vecswap (swap a i j) (i + 1) (j + 1) r'
  end.

Fixpoint qsort_from (fuel : nat) (a : list Z) (lo n : nat) : list Z :=
  match fuel with
  | O => a
  | S fuel' =>
      if (n <? 7)%nat then insertion a lo n
      else
        let pm := (lo + n / 2)%nat in
        let pm :=
          if (7 <? n)%nat then
            let pl := lo in
            let pn := (lo + (n - 1))%nat in
            let d := (n / 8)%nat in
            let pl := if (40 <? n)%nat then med3 a pl (pl + d) (pl + 2 * d) else pl in
            let pm := if (40 <? n)%nat then med3 a (pm - d) pm (pm + d) else pm in
            let pn := if (40 <? n)%nat then med3 a (pn - 2 * d) (pn - d) pn else pn in
            med3 a pl pm pn
          else pm in
        let a := swap a lo pm in
        let '(a, pa, pb, pc, pd, swapped) :=
          partition n n a lo (lo + 1) (lo + 1) (lo + (n - 1)) (lo + (n - 1)) false in
        if negb swapped then insertion a lo n
        else
          let pn := (lo + n)%nat in
          let r := Nat.min (pa - lo) (pb - pa) in
          let a := vecswap a lo (pb - r) r in
          let r := Nat.min (pd - pc) (pn - pd - 1) in
          let a := vecswap a pb (pn - r) r in
          let a := if (1 <? pb - pa)%nat then qsort_from fuel' a lo (pb - pa) else a in
          if (1 <? pd - pc)%nat then qsort_from fuel' a (pn - (pd - pc)) (pd - pc) else a
  end.

End Quicksort.

Definition qsort_r_bsd (cmp : Z -> Z -> Z) (a : list Z) : list Z :=
  qsort_from cmp (length a) a 0 (length a).

End Libc.

(** ** An example buffer *)

Module Example.

Definition byte_of_Z (z : Z) : byte :=
  match Byte.of_N (Z.to_N z) with
  | Some b => b
  | None => x00
  end.

(** [n] bytes of [v], least significant first. *)
Fixpoint le_bytes (n : nat) (v : Z) : list byte :=
  match n with
  | O => []
  | S n' => byte_of_Z (v mod 256) :: le_bytes n' (v / 256)
  end.

Definition record_bytes (size date name_off name_len path_off path_len
                         lower_off lower_len : Z) : list byte :=
  le_bytes 8 size ++ le_bytes 8 date ++ le_bytes 4 0
  ++ le_bytes 4 name_off ++ le_bytes 4 name_len
  ++ le_bytes 4 path_off ++ le_bytes 4 path_len
  ++ le_bytes 4 lower_off ++ le_bytes 4 lower_len.

Definition Beta : list byte := [x42; x65; x74; x61].
Definition beta : list byte := [x62; x65; x74; x61].
Definition alpha : list byte := [x61; x6c; x70; x68; x61].
Definition Gamma : list byte := [x47; x61; x6d; x6d; x61].
Definition gamma : list byte := [x67; x61; x6d; x6d; x61].
Definition slash_a : list byte := [x2f; x61].
Definition slash_b : list byte := [x2f; x62].
Definition slash_g : list byte := [x2f; x67].
Definition slash_z : list byte := [x2f; x7a].
Definition eta : list byte := [x65; x74; x61].

(** Three records of 44 bytes, then the strings; the lowercased name of
    "alpha" is the name itself, so two spans overlap.  The modification
    times are the doubles 3.0, 1.0 and 2.0. *)
Definition buffer : list byte :=
  record_bytes 300 0x4008000000000000 132 4 136 2 138 4
  ++ record_bytes 100 0x3FF0000000000000 142 5 147 2 142 5
  ++ record_bytes 200 0x4000000000000000 149 5 154 2 156 5
  ++ Beta ++ slash_b ++ beta ++ alpha ++ slash_a ++ Gamma ++ slash_g ++ gamma.

(** A memory holding [bytes] at address [base] and zeros elsewhere. *)
Definition mem_at (base : Z) (bytes : list byte) : mem :=
  fun a => if (base <=? a) && (a <? base + Z.of_nat (length bytes))
           then nth (Z.to_nat (a - base)) bytes x00
           else x00.

Definition data_ptr : Z := 4096.
Definition memory : mem := mem_at data_ptr buffer.

(** The constant memory: every byte is [b]. *)
Definition mem_fill (b : byte) : mem := fun _ => b.

(** Records of 44 bytes from [data_ptr] on, all alike: every field is zero
    except the lowercased-name length, which is 1, so every lowercased name
    is the one byte at offset 0, a zero byte. *)
Definition mem_striped : mem :=
  fun a => if (a - data_ptr) mod 44 =? 40 then x01 else x00.

(** A buffer of one record and nothing else: the lowercased name is said to
    be the one byte at offset 44, the first byte behind the buffer. *)
Definition overrun_buffer : list byte := record_bytes 0 0 0 0 0 0 44 1.

(** The memory with that buffer at [data_ptr] and byte [b] right behind it. *)
Definition mem_overrun (b : byte) : mem := mem_at data_ptr (overrun_buffer ++ [b]).

(** Two records whose names are the first four and all five bytes of one
    string, "Gamm" and "Gamma". *)
Definition prefix_buffer : list byte :=
  record_bytes 1 0 88 4 93 2 88 4
  ++ record_bytes 2 0 88 5 93 2 88 5
  ++ Gamma ++ slash_g.

(** Bytes [x01] below [bound] and zero bytes from [bound] on. *)
Definition mem_ones_below (bound : Z) : mem := fun a => if a <? bound then x01 else x00.

End Example.

(** ** The properties under study *)

(** [start; start + 1; ...], [n] numbers. *)
Fixpoint zrange (start : Z) (n : nat) : list Z :=
  match n with
  | O => []
  | S n' => start :: zrange (start + 1) n'
  end.

(** What the caller reads back from a scan: the first [count] output slots. *)
Definition scan_output (r : Z * (Z -> Z)) : list Z :=
  map (snd r) (zrange 0 (Z.to_nat (fst r))).

(** One round of [results_buffer[match_count++] = (int32_t)i] for every
    index of [matches] in turn. *)
Fixpoint push_all (matches : list Z) (match_count : Z) (results_buffer : Z -> Z)
  : Z * (Z -> Z) :=
  match matches with
  | [] => (match_count, results_buffer)
  | i :: rest =>
      push_all rest (CInt.int32_t (match_count + 1))
               (store_slot results_buffer match_count (CInt.int32_t i))
  end.

Section ScanProperties.

Variable memmem : list byte -> list byte -> option Z.
Variable m : mem.
Variables (data_ptr item_base_offset item_record_size : Z).
Variables (start_index end_index : Z).
Variable query : list byte.
Variable results_buffer : Z -> Z.

(** Does [memmem] report the query in record [i]'s lowercased name? *)
Definition scan_hit (i : Z) : bool :=
  match memmem (record_lower_name m data_ptr item_base_offset item_record_size i) query with
  | Some _ => true
  | None => false
  end.

(** The scan returns exactly the indices of the range whose lowercased name
    contains the query, in strictly ascending order. *)
Definition scan_exact : Prop :=
  let r := perform_search_scan memmem m data_ptr item_base_offset item_record_size
             start_index end_index query results_buffer in
  0 <= fst r /\
  StronglySorted Z.lt (scan_output r) /\
  forall i, In i (scan_output r) <->
            start_index <= i < end_index /\
            occurs query (record_lower_name m data_ptr item_base_offset item_record_size i).

(** The scan returns every index of the range. *)
Definition scan_returns_all : Prop :=
  let r := perform_search_scan memmem m data_ptr item_base_offset item_record_size
             start_index end_index query results_buffer in
  fst r = end_index - start_index /\
  forall k, 0 <= k < end_index - start_index -> snd r k = start_index + k.

(** The scan returns nothing and leaves the output alone. *)
Definition scan_returns_none : Prop :=
  let r := perform_search_scan memmem m data_ptr item_base_offset item_record_size
             start_index end_index query results_buffer in
  fst r = 0 /\ forall k, snd r k = results_buffer k.

(** The match count is at most the range size and only the first
    match-count output slots are written. *)
Definition scan_within_capacity : Prop :=
  let r := perform_search_scan memmem m data_ptr item_base_offset item_record_size
             start_index end_index query results_buffer in
  fst r <= end_index - start_index /\
  forall k, ~ (0 <= k < fst r) -> snd r k = results_buffer k.

End ScanProperties.

Section LookupProperties.

Variable m : mem.
Variables (data_ptr item_base_offset item_record_size count : Z).
Variable target_path : list byte.

(** [-1] when no record has the target as its path, the first such record
    otherwise. *)
Definition lookup_exact : Prop :=
  let r := perform_path_lookup m data_ptr item_base_offset item_record_size count target_path in
  ((forall i, 0 <= i < count ->
      record_path m data_ptr item_base_offset item_record_size i <> target_path) ->
   r = -1) /\
  (forall i, 0 <= i < count ->
     record_path m data_ptr item_base_offset item_record_size i = target_path ->
     (forall j, 0 <= j < i ->
        record_path m data_ptr item_base_offset item_record_size j <> target_path) ->
     r = i).

End LookupProperties.

Section SortProperties.

Variable qsort_r : (Z -> Z -> Z) -> list Z -> list Z.
Variable m : mem.
Variables (data_ptr item_base_offset item_record_size : Z).

(** Sorting a sorted array changes nothing. *)
Definition sort_keeps_sorted (key : Z) (ascending : bool) (indices : list Z) : Prop :=
  StronglySorted (key_ordered m data_ptr item_base_offset item_record_size key ascending)
                 indices ->
  perform_index_sort qsort_r m indices (Z.of_nat (length indices))
                     data_ptr item_base_offset item_record_size key ascending
  = indices.

End SortProperties.

(** Sign of a comparator result. *)
Definition key_compare (m : mem) (data_ptr item_base_offset item_record_size : Z)
    (key : Z) (i j : Z) : comparison :=
  if key =? SORT_KEY_NAME then
    bytes_compare (record_name m data_ptr item_base_offset item_record_size i)
                  (record_name m data_ptr item_base_offset item_record_size j)
  else if key =? SORT_KEY_PATH then
    bytes_compare (record_path m data_ptr item_base_offset item_record_size i)
                  (record_path m data_ptr item_base_offset item_record_size j)
  else if key =? SORT_KEY_SIZE then
    record_size m data_ptr item_base_offset item_record_size i
      ?= record_size m data_ptr item_base_offset item_record_size j
  else
    let x := record_modified m data_ptr item_base_offset item_record_size i in
    let y := record_modified m data_ptr item_base_offset item_record_size j in
    if fp_lt x y then Lt else if fp_lt y x then Gt else Eq.

Section Confinement.

Variable memmem : list byte -> list byte -> option Z.
Variables (m1 m2 : mem).
Variables (data_ptr item_base_offset item_record_size : Z).

(** The scan gives the same count and the same output in both memories. *)
Definition scan_agrees (start_index end_index : Z) (query : list byte) : Prop :=
  forall rb,
    let r1 := perform_search_scan memmem m1 data_ptr item_base_offset item_record_size
                start_index end_index query rb in
    let r2 := perform_search_scan memmem m2 data_ptr item_base_offset item_record_size
                start_index end_index query rb in
    fst r1 = fst r2 /\ forall k, snd r1 k = snd r2 k.

End Confinement.

(** The three records of the specification's example, whatever the layout
    of the buffer that holds them. *)
Definition example_records (m : mem) (data_ptr item_base_offset item_record_size : Z)
  : Prop :=
  record_name m data_ptr item_base_offset item_record_size 0 = Example.Beta /\
  record_path m data_ptr item_base_offset item_record_size 0 = Example.slash_b /\
  record_lower_name m data_ptr item_base_offset item_record_size 0 = Example.beta /\
  record_size m data_ptr item_base_offset item_record_size 0 = 300 /\
  record_name m data_ptr item_base_offset item_record_size 1 = Example.alpha /\
  record_path m data_ptr item_base_offset item_record_size 1 = Example.slash_a /\
  record_lower_name m data_ptr item_base_offset item_record_size 1 = Example.alpha /\
  record_size m data_ptr item_base_offset item_record_size 1 = 100 /\
  record_name m data_ptr item_base_offset item_record_size 2 = Example.Gamma /\
  record_path m data_ptr item_base_offset item_record_size 2 = Example.slash_g /\
  record_lower_name m data_ptr item_base_offset item_record_size 2 = Example.gamma /\
  record_size m data_ptr item_base_offset item_record_size 2 = 200.

(** No two different entries of the array have equal keys. *)
Definition keys_distinct (m : mem) (data_ptr item_base_offset item_record_size : Z)
    (key : Z) (indices : list Z) : Prop :=
  forall a b, In a indices -> In b indices ->
    key_le m data_ptr item_base_offset item_record_size key a b ->
    key_le m data_ptr item_base_offset item_record_size key b a ->
    a = b.

(** The [buf_len] bytes at [p1] in [m1] are the [buf_len] bytes at [p2] in
    [m2]: the same buffer, mapped at another address. *)
Definition relocated (m1 : mem) (p1 : Z) (m2 : mem) (p2 buf_len : Z) : Prop :=
  forall off, 0 <= off < buf_len -> m1 (p1 + off) = m2 (p2 + off).

(** * Properties *)

(** ** Integers, bytes and loads *)

Lemma int32_t_small (z : Z) : - 2 ^ 31 <= z < 2 ^ 31 -> CInt.int32_t z = z.
Proof.
  intros H. unfold CInt.int32_t. rewrite Z.mod_small; lia.
Qed.

Lemma size_t_small (z : Z) : 0 <= z < 2 ^ 64 -> CInt.size_t z = z.
Proof.
  intros H. unfold CInt.size_t. now rewrite Z.mod_small.
Qed.

Lemma size_t_mul_idemp (a b : Z) : CInt.size_t (CInt.size_t a * b) = CInt.size_t (a * b).
Proof.
  unfold CInt.size_t. now rewrite Z.mul_mod_idemp_l.
Qed.

Lemma ptr_add_small (p n : Z) : 0 <= p + n < 2 ^ 64 -> ptr_add p n = p + n.
Proof.
  intros H. unfold ptr_add. now apply size_t_small.
Qed.

Lemma byte_val_range (b : byte) : 0 <= byte_val b < 256.
Proof.
  unfold byte_val. pose proof (Byte.to_N_bounded b) as H. lia.
Qed.

Lemma byte_val_inj (x y : byte) : byte_val x = byte_val y -> x = y.
Proof.
  unfold byte_val. intros H.
  apply N2Z.inj in H.
  pose proof (Byte.of_to_N x) as Hx. pose proof (Byte.of_to_N y) as Hy.
  rewrite H in Hx. congruence.
Qed.

Lemma load_le_range (m : mem) (n : nat) (p : Z) : 0 <= load_le m p n < 256 ^ Z.of_nat n.
Proof.
  revert p. induction n as [|n IH]; intros p.
  - simpl. lia.
  - cbn [load_le]. specialize (IH (ptr_add p 1)).
    pose proof (byte_val_range (m p)) as Hb. unfold byte_val in Hb. unfold load_uint8.
    rewrite Nat2Z.inj_succ, Z.pow_succ_r by lia. lia.
Qed.

Lemma load_uint32_range (m : mem) (p : Z) : 0 <= load_uint32 m p < 2 ^ 32.
Proof.
  unfold load_uint32. pose proof (load_le_range m 4 p) as H.
  change (256 ^ Z.of_nat 4) with (2 ^ 32) in H. exact H.
Qed.

Lemma load_bytes_length (m : mem) (p n : Z) : length (load_bytes m p n) = Z.to_nat n.
Proof.
  unfold load_bytes. now rewrite length_map, length_seq.
Qed.

Lemma firstn_seq_le (n k s : nat) : (n <= k)%nat -> firstn n (seq s k) = seq s n.
Proof.
  revert k s. induction n as [|n IH]; intros k s H; [reflexivity|].
  destruct k as [|k]; [lia|]. simpl. f_equal. apply IH. lia.
Qed.

Lemma load_bytes_firstn (m : mem) (p n k : Z) :
  n <= k -> load_bytes m p n = firstn (Z.to_nat n) (load_bytes m p k).
Proof.
  intros H. unfold load_bytes. rewrite firstn_map, firstn_seq_le by lia.
  reflexivity.
Qed.

(** ** [memcmp] *)

Lemma memcmp_range (a b : list byte) : - 255 <= memcmp a b <= 255.
Proof.
  revert b. induction a as [|x a IH]; intros [|y b]; simpl; try lia.
  destruct (byte_val x =? byte_val y).
  - apply IH.
  - pose proof (byte_val_range x). pose proof (byte_val_range y). lia.
Qed.

Lemma memcmp_eq_iff (a b : list byte) :
  length a = length b -> (memcmp a b = 0 <-> a = b).
Proof.
  revert b. induction a as [|x a IH]; intros [|y b] Hlen; simpl in *; try discriminate.
  - tauto.
  - destruct (Z.eqb_spec (byte_val x) (byte_val y)) as [E|E].
    + apply byte_val_inj in E. subst y. rewrite IH by congruence.
      split; congruence.
    + split; [lia|]. intros H. injection H as -> _. congruence.
Qed.

(** ** The two [memmem]s and the insertion sort meet the libc contracts *)

Lemma starts_with_iff (needle hay : list byte) :
  Libc.starts_with needle hay = true <-> exists suf, hay = needle ++ suf.
Proof.
  revert hay. induction needle as [|x needle IH]; intros hay; simpl.
  - split; [intros _; now exists hay | reflexivity].
  - destruct hay as [|y hay].
    + split; [discriminate | intros [suf H]; discriminate].
    + rewrite andb_true_iff, Z.eqb_eq, IH. split.
      * intros [E [suf ->]]. apply byte_val_inj in E. subst. now exists suf.
      * intros [suf H]. injection H as -> ->. split; [reflexivity | now exists suf].
Qed.

Lemma occurs_cons (needle : list byte) (y : byte) (hay : list byte) :
  occurs needle (y :: hay) <->
  (exists suf, y :: hay = needle ++ suf) \/ occurs needle hay.
Proof.
  unfold occurs. split.
  - intros [[|z pre] [suf H]].
    + left. now exists suf.
    + right. injection H as _ ->. now exists pre, suf.
  - intros [[suf H] | [pre [suf ->]]].
    + now exists [], suf.
    + now exists (y :: pre), suf.
Qed.

Lemma occurs_nil_r (needle : list byte) : occurs needle [] <-> needle = [].
Proof.
  unfold occurs. split.
  - intros [pre [suf H]]. symmetry in H.
    apply app_eq_nil in H as [_ H]. now apply app_eq_nil in H.
  - intros ->. now exists [], [].
Qed.

Lemma first_occurrence_iff (needle hay : list byte) (pos : Z) :
  Libc.first_occurrence needle hay pos <> None <-> occurs needle hay.
Proof.
  revert pos. induction hay as [|y hay IH]; intros pos; simpl.
  - rewrite occurs_nil_r. destruct needle; simpl; split; congruence.
  - rewrite occurs_cons, <- starts_with_iff.
    destruct (Libc.starts_with needle (y :: hay)).
    + split; [now left | congruence].
    + rewrite IH. split; [now right | intros [H|H]; [discriminate | exact H]].
Qed.

Lemma memmem_gnu_contract : memmem_contract Libc.memmem_gnu.
Proof.
  intros hay needle _. apply first_occurrence_iff.
Qed.

Lemma memmem_bsd_contract : memmem_contract Libc.memmem_bsd.
Proof.
  intros hay needle Hne. unfold Libc.memmem_bsd.
  destruct hay as [|y hay].
  - rewrite occurs_nil_r. tauto.
  - destruct needle as [|x needle]; [congruence|]. apply first_occurrence_iff.
Qed.

Lemma consistent_on_incl (cmp : Z -> Z -> Z) (l l' : list Z) :
  incl l' l -> consistent_on cmp l -> consistent_on cmp l'.
Proof.
  intros Hi [Ha Ht]. split.
  - intros a b Ia Ib. apply Ha; now apply Hi.
  - intros a b c Ia Ib Ic. apply Ht; now apply Hi.
Qed.

Lemma insert_behind_perm (cmp : Z -> Z -> Z) (x : Z) (l : list Z) :
  Permutation (x :: l) (Libc.insert_behind cmp x l).
Proof.
  induction l as [|y l IH]; simpl; [reflexivity|].
  destruct (cmp x y <? 0); [reflexivity|].
  rewrite perm_swap. now constructor.
Qed.

Lemma qsort_r_insertion_perm (cmp : Z -> Z -> Z) (l : list Z) :
  Permutation l (Libc.qsort_r_insertion cmp l).
Proof.
  unfold Libc.qsort_r_insertion. induction l as [|x l IH]; simpl; [constructor|].
  rewrite <- insert_behind_perm. now constructor.
Qed.

Lemma insert_behind_sorted (cmp : Z -> Z -> Z) (x : Z) (l : list Z) :
  consistent_on cmp (x :: l) -> sorted_by cmp l ->
  sorted_by cmp (Libc.insert_behind cmp x l).
Proof.
  unfold sorted_by. intros Hc. induction l as [|y l IH]; intros Hs; simpl.
  - repeat constructor.
  - inversion Hs as [|? ? Hs' Hy]; subst.
    destruct Hc as [Ha Ht].
    destruct (Z.ltb_spec (cmp x y) 0) as [Hlt|Hge].
    + constructor; [exact Hs|]. constructor; [lia|].
      rewrite Forall_forall in Hy |- *. intros b Hb.
      apply (Ht x y b); [now left | right; now left | right; now right | lia | now apply Hy].
    + constructor.
      * apply IH; [|exact Hs'].
        apply (consistent_on_incl cmp (x :: y :: l)); [|now split].
        intros z [->|Hz]; simpl; auto.
      * apply (Permutation_Forall (insert_behind_perm cmp x l)).
        constructor; [|exact Hy].
        specialize (Ha x y (or_introl eq_refl) (or_intror (or_introl eq_refl))).
        lia.
Qed.

Lemma qsort_r_insertion_sorted (cmp : Z -> Z -> Z) (l : list Z) :
  consistent_on cmp l -> sorted_by cmp (Libc.qsort_r_insertion cmp l).
Proof.
  unfold Libc.qsort_r_insertion. induction l as [|x l IH]; intros Hc; simpl.
  - constructor.
  - apply insert_behind_sorted.
    + apply (consistent_on_incl cmp (x :: l)); [|exact Hc].
      intros z [->|Hz]; [now left|]. right.
      apply (Permutation_in _ (Permutation_sym (qsort_r_insertion_perm cmp l))), Hz.
    + apply IH. apply (consistent_on_incl cmp (x :: l)); [|exact Hc].
      intros z Hz. now right.
Qed.

Lemma insert_behind_local (cmp1 cmp2 : Z -> Z -> Z) (x : Z) (l : list Z) :
  (forall b, In b l -> cmp1 x b = cmp2 x b) ->
  Libc.insert_behind cmp1 x l = Libc.insert_behind cmp2 x l.
Proof.
  induction l as [|y l IH]; intros H; simpl; [reflexivity|].
  rewrite (H y) by now left. rewrite IH; [reflexivity|].
  intros b Hb. apply H. now right.
Qed.

Lemma qsort_r_insertion_local (cmp1 cmp2 : Z -> Z -> Z) (l : list Z) :
  (forall a b, In a l -> In b l -> cmp1 a b = cmp2 a b) ->
  Libc.qsort_r_insertion cmp1 l = Libc.qsort_r_insertion cmp2 l.
Proof.
  unfold Libc.qsort_r_insertion. induction l as [|x l IH]; intros H; simpl; [reflexivity|].
  rewrite IH by (intros a b Ia Ib; apply H; now right).
  apply insert_behind_local. intros b Hb. apply H; [now left|]. right.
  apply (Permutation_in _ (Permutation_sym (qsort_r_insertion_perm cmp2 l))), Hb.
Qed.

Lemma qsort_r_insertion_contract : qsort_r_contract Libc.qsort_r_insertion.
Proof.
  constructor.
  - apply qsort_r_insertion_perm.
  - apply qsort_r_insertion_sorted.
  - apply qsort_r_insertion_local.
Qed.

(** ** Ranges *)

Lemma zrange_length (n : nat) (s : Z) : length (zrange s n) = n.
Proof.
  revert s. induction n as [|n IH]; intros s; simpl; [reflexivity|]. now rewrite IH.
Qed.

Lemma zrange_In (n : nat) (s i : Z) : In i (zrange s n) <-> s <= i < s + Z.of_nat n.
Proof.
  revert s. induction n as [|n IH]; intros s.
  - simpl. lia.
  - cbn [zrange In]. rewrite IH. lia.
Qed.

Lemma zrange_app (a b : nat) (s : Z) :
  zrange s (a + b) = zrange s a ++ zrange (s + Z.of_nat a) b.
Proof.
  revert s. induction a as [|a IH]; intros s.
  - simpl. now rewrite Z.add_0_r.
  - cbn [Nat.add zrange app]. rewrite IH. do 3 f_equal. lia.
Qed.

Lemma zrange_sorted (n : nat) (s : Z) : StronglySorted Z.lt (zrange s n).
Proof.
  revert s. induction n as [|n IH]; intros s; simpl; constructor; [apply IH|].
  apply Forall_forall. intros i Hi. apply zrange_In in Hi. lia.
Qed.

Lemma filter_sorted {A : Type} (R : A -> A -> Prop) (f : A -> bool) (l : list A) :
  StronglySorted R l -> StronglySorted R (filter f l).
Proof.
  induction 1 as [|x l Hs IH Hx]; simpl; [constructor|].
  destruct (f x); [|exact IH]. constructor; [exact IH|].
  rewrite Forall_forall in Hx |- *. intros y Hy. apply Hx.
  now apply filter_In in Hy.
Qed.

Lemma map_nth_zrange (l : list Z) (s : Z) (f : Z -> Z) :
  (forall k, s <= k < s + Z.of_nat (length l) -> f k = nth (Z.to_nat (k - s)) l 0) ->
  map f (zrange s (length l)) = l.
Proof.
  revert s. induction l as [|x l IH]; intros s H; [reflexivity|].
  cbn [length zrange map]. f_equal.
  - rewrite H by (cbn [length]; lia). now rewrite Z.sub_diag.
  - apply IH. intros k Hk. rewrite H by (cbn [length]; lia).
    replace (Z.to_nat (k - s)) with (S (Z.to_nat (k - (s + 1)))) by lia.
    reflexivity.
Qed.

(** ** The scan loop *)

Section ScanFacts.

Variable memmem : list byte -> list byte -> option Z.
Variable m : mem.
Variables (data_ptr item_base_offset item_record_size : Z).
Variable end_index : Z.
Variable query : list byte.

Local Abbreviation loop :=
  (scan_loop memmem m data_ptr item_base_offset item_record_size end_index query).
Local Abbreviation hit :=
  (scan_hit memmem m data_ptr item_base_offset item_record_size query).

(** The loop pushes the hits of the remaining range, in order. *)
Lemma scan_loop_push (n : nat) (i mc : Z) (rb : Z -> Z) :
  i + Z.of_nat n <= end_index ->
  loop n i mc rb = push_all (filter hit (zrange i n)) mc rb.
Proof.
  revert i mc rb. induction n as [|n IH]; intros i mc rb H; [reflexivity|].
  cbn [scan_loop zrange filter].
  destruct (Z.ltb_spec i end_index) as [_|Hge]; [|lia].
  unfold scan_hit at 1, record_lower_name, string_field, record_ptr.
  destruct (memmem _ query); cbn [push_all]; apply IH; lia.
Qed.

(** Once the fuel covers the range, more fuel changes nothing: the loop
    leaves through its condition. *)
Lemma scan_loop_fuel (n n' : nat) (i mc : Z) (rb : Z -> Z) :
  end_index - i <= Z.of_nat n -> end_index - i <= Z.of_nat n' ->
  loop n i mc rb = loop n' i mc rb.
Proof.
  revert n' i mc rb. induction n as [|n IH]; intros [|n'] i mc rb H H';
    cbn [scan_loop]; try reflexivity.
  - destruct (Z.ltb_spec i end_index); [lia | reflexivity].
  - destruct (Z.ltb_spec i end_index); [lia | reflexivity].
  - destruct (i <? end_index); [|reflexivity].
    destruct (memmem _ query); apply IH; lia.
Qed.

End ScanFacts.

(** Without overflow of the counter, [push_all] advances it by the number of
    indices and touches the slots in between only. *)
Lemma push_all_count (l : list Z) (mc : Z) (rb : Z -> Z) :
  0 <= mc -> mc + Z.of_nat (length l) <= CInt.INT32_MAX ->
  fst (push_all l mc rb) = mc + Z.of_nat (length l) /\
  forall k, ~ (mc <= k < mc + Z.of_nat (length l)) -> snd (push_all l mc rb) k = rb k.
Proof.
  unfold CInt.INT32_MAX.
  revert mc rb. induction l as [|i l IH]; intros mc rb H0 H; cbn [push_all length] in *.
  - split; [simpl; lia | reflexivity].
  - rewrite int32_t_small by lia.
    destruct (IH (mc + 1) (store_slot rb mc (CInt.int32_t i))) as [Hc Hf]; [lia | lia |].
    split; [lia|]. intros k Hk. rewrite Hf by lia.
    unfold store_slot. destruct (Z.eqb_spec k mc); [lia | reflexivity].
Qed.

(** If moreover every index fits an [int32_t], the slots hold the indices. *)
Lemma push_all_values (l : list Z) (mc : Z) (rb : Z -> Z) :
  0 <= mc -> mc + Z.of_nat (length l) <= CInt.INT32_MAX ->
  Forall (fun i => 0 <= i < 2 ^ 31) l ->
  forall k, mc <= k < mc + Z.of_nat (length l) ->
            snd (push_all l mc rb) k = nth (Z.to_nat (k - mc)) l 0.
Proof.
  unfold CInt.INT32_MAX.
  revert mc rb. induction l as [|i l IH]; intros mc rb H0 H Hl k Hk;
    cbn [push_all length] in *; [lia|].
  inversion Hl as [|? ? Hi Hl']; subst.
  rewrite !int32_t_small by lia.
  destruct (Z.eq_dec k mc) as [->|Hne].
  - destruct (push_all_count l (mc + 1) (store_slot rb mc i)) as [_ Hf];
      [lia | unfold CInt.INT32_MAX; lia |].
    rewrite Hf by lia. unfold store_slot. rewrite Z.eqb_refl, Z.sub_diag. reflexivity.
  - rewrite IH by (try assumption; lia).
    replace (Z.to_nat (k - mc)) with (S (Z.to_nat (k - (mc + 1)))) by lia.
    reflexivity.
Qed.

Lemma push_all_app (l1 l2 : list Z) (mc : Z) (rb : Z -> Z) :
  push_all (l1 ++ l2) mc rb
  = push_all l2 (fst (push_all l1 mc rb)) (snd (push_all l1 mc rb)).
Proof.
  revert mc rb. induction l1 as [|i l1 IH]; intros mc rb; [reflexivity|].
  cbn [app push_all]. apply IH.
Qed.

Lemma filter_all {A : Type} (f : A -> bool) (l : list A) :
  (forall x, In x l -> f x = true) -> filter f l = l.
Proof.
  induction l as [|x l IH]; intros H; simpl; [reflexivity|].
  rewrite (H x) by now left. f_equal. apply IH. intros y Hy. apply H. now right.
Qed.

Lemma filter_none {A : Type} (f : A -> bool) (l : list A) :
  (forall x, In x l -> f x = false) -> filter f l = [].
Proof.
  induction l as [|x l IH]; intros H; simpl; [reflexivity|].
  rewrite (H x) by now left. apply IH. intros y Hy. apply H. now right.
Qed.

Lemma filter_length_le {A : Type} (f : A -> bool) (l : list A) :
  (length (filter f l) <= length l)%nat.
Proof.
  induction l as [|x l IH]; simpl; [lia|]. destruct (f x); simpl; lia.
Qed.

(** The whole scan: push the hits of the range, starting from an empty
    count. *)
Lemma scan_as_push (memmem : list byte -> list byte -> option Z) (m : mem)
    (data_ptr item_base_offset item_record_size start_index end_index : Z)
    (query : list byte) (rb : Z -> Z) :
  perform_search_scan memmem m data_ptr item_base_offset item_record_size
                      start_index end_index query rb
  = push_all (filter (scan_hit memmem m data_ptr item_base_offset item_record_size query)
                     (zrange start_index (Z.to_nat (end_index - start_index))))
             0 rb.
Proof.
  unfold perform_search_scan.
  destruct (Z.le_gt_cases start_index end_index) as [Hle|Hgt].
  - apply scan_loop_push. lia.
  - replace (Z.to_nat (end_index - start_index)) with O by lia. reflexivity.
Qed.

Lemma scan_hit_occurs (memmem : list byte -> list byte -> option Z) (m : mem)
    (data_ptr item_base_offset item_record_size : Z) (query : list byte) (i : Z) :
  memmem_contract memmem -> query <> [] ->
  (scan_hit memmem m data_ptr item_base_offset item_record_size query i = true <->
   occurs query (record_lower_name m data_ptr item_base_offset item_record_size i)).
Proof.
  intros Hc Hq. rewrite <- (Hc _ query Hq). unfold scan_hit.
  destruct (memmem _ query); split; congruence.
Qed.

(** What the caller reads back when neither the counter nor an index
    overflows: the hits of the range. *)
Lemma scan_output_hits (memmem : list byte -> list byte -> option Z) (m : mem)
    (data_ptr item_base_offset item_record_size start_index end_index : Z)
    (query : list byte) (rb : Z -> Z) :
  0 <= start_index -> end_index <= 2 ^ 31 ->
  end_index - start_index <= CInt.INT32_MAX ->
  let r := perform_search_scan memmem m data_ptr item_base_offset item_record_size
             start_index end_index query rb in
  let hits := filter (scan_hit memmem m data_ptr item_base_offset item_record_size query)
                (zrange start_index (Z.to_nat (end_index - start_index))) in
  fst r = Z.of_nat (length hits) /\ scan_output r = hits.
Proof.
  intros H0 Hend Hsize. cbv zeta. rewrite scan_as_push.
  pose proof (filter_length_le
    (scan_hit memmem m data_ptr item_base_offset item_record_size query)
    (zrange start_index (Z.to_nat (end_index - start_index)))) as Hl.
  rewrite zrange_length in Hl.
  set (hits := filter _ _) in *.
  assert (Hlen : 0 + Z.of_nat (length hits) <= CInt.INT32_MAX)
    by (unfold CInt.INT32_MAX in *; lia).
  destruct (push_all_count hits 0 rb) as [Hc _]; [lia | exact Hlen |].
  split; [rewrite Hc; lia|].
  unfold scan_output. rewrite Hc, Z.add_0_l, Nat2Z.id.
  apply map_nth_zrange. intros k Hk.
  apply push_all_values; [lia | exact Hlen | | lia].
  apply Forall_forall. intros i Hi. apply filter_In in Hi as [Hi _].
  apply zrange_In in Hi. lia.
Qed.

(** C1 (as amended): with every index of the range below 2^31, at most
    2^31 - 1 records in the range and a query that is not empty,
    [perform_search_scan] returns exactly the indices of the range whose
    lowercased name contains the query, in strictly ascending order. *)
Theorem scan_returns_matching_indices
    (memmem : list byte -> list byte -> option Z) (m : mem)
    (data_ptr item_base_offset item_record_size start_index end_index : Z)
    (query : list byte) (results_buffer : Z -> Z) :
  memmem_contract memmem ->
  query <> [] ->
  0 <= start_index -> end_index <= 2 ^ 31 ->
  end_index - start_index <= CInt.INT32_MAX ->
  scan_exact memmem m data_ptr item_base_offset item_record_size
             start_index end_index query results_buffer.
Proof.
  intros Hc Hq H0 Hend Hsize. unfold scan_exact.
  destruct (scan_output_hits memmem m data_ptr item_base_offset item_record_size
              start_index end_index query results_buffer H0 Hend Hsize) as [Hcount Hout].
  cbv zeta. rewrite Hout, Hcount. split; [lia|]. split.
  - apply filter_sorted, zrange_sorted.
  - intros i. rewrite filter_In, zrange_In, (scan_hit_occurs _ _ _ _ _ _ _ Hc Hq).
    assert (start_index <= i < start_index + Z.of_nat (Z.to_nat (end_index - start_index))
            <-> start_index <= i < end_index) by lia.
    tauto.
Qed.

Lemma scan_returns_matching_indices_witness :
  scan_exact Libc.memmem_bsd Example.memory Example.data_ptr 0 44 0 3 Example.eta
             (fun _ => 0).
Proof.
  apply scan_returns_matching_indices.
  - apply memmem_bsd_contract.
  - discriminate.
  - lia.
  - lia.
  - unfold CInt.INT32_MAX. lia.
Defined.

(** C1 as stated fails twice over.  Index 2^31 is returned as -2^31, which
    is outside the range; and with the BSD [memmem] an empty query returns
    nothing although every name contains the empty string. *)
Lemma scan_exact_fails :
  memmem_contract Libc.memmem_bsd
  /\ ~ scan_exact Libc.memmem_bsd Example.mem_striped Example.data_ptr 0 44
                  (2 ^ 31) (2 ^ 31 + 1) [x00] (fun _ => 0)
  /\ ~ scan_exact Libc.memmem_bsd Example.memory Example.data_ptr 0 44 0 3 []
                  (fun _ => 0).
Proof.
  split; [apply memmem_bsd_contract|]. split.
  - intros [_ [_ H]]. specialize (H (- 2 ^ 31)).
    assert (Hin : In (- 2 ^ 31)
              (scan_output (perform_search_scan Libc.memmem_bsd Example.mem_striped
                              Example.data_ptr 0 44 (2 ^ 31) (2 ^ 31 + 1) [x00]
                              (fun _ => 0)))).
    { vm_compute. now left. }
    pose proof (proj1 H Hin) as Hrange. lia.
  - intros [_ [_ H]]. specialize (H 0).
    assert (Hout : scan_output (perform_search_scan Libc.memmem_bsd Example.memory
                      Example.data_ptr 0 44 0 3 [] (fun _ => 0)) = []) by (vm_compute; reflexivity).
    rewrite Hout in H. apply H. split; [lia|]. now exists [], (record_lower_name Example.memory Example.data_ptr 0 44 0).
Qed.

Lemma nth_zrange (n : nat) (s : Z) (k : nat) :
  (k < n)%nat -> nth k (zrange s n) 0 = s + Z.of_nat k.
Proof.
  revert s k. induction n as [|n IH]; intros s k H; [lia|].
  destruct k as [|k]; cbn [zrange nth]; [lia|].
  rewrite IH by lia. lia.
Qed.

(** C5 (as amended): what an empty query returns is decided by the
    platform's [memmem].  Where it reports an empty needle as found, the
    scan returns every index of a range that stays below 2^31 and holds at
    most 2^31 - 1 records; where it returns [NULL] for an empty needle, the
    scan returns nothing. *)
Theorem empty_query_scan
    (memmem : list byte -> list byte -> option Z) (m : mem)
    (data_ptr item_base_offset item_record_size start_index end_index : Z)
    (results_buffer : Z -> Z) :
  ((forall hay, memmem hay [] <> None) ->
   0 <= start_index <= end_index -> end_index <= 2 ^ 31 ->
   end_index - start_index <= CInt.INT32_MAX ->
   scan_returns_all memmem m data_ptr item_base_offset item_record_size
                    start_index end_index [] results_buffer)
  /\
  ((forall hay, memmem hay [] = None) ->
   scan_returns_none memmem m data_ptr item_base_offset item_record_size
                     start_index end_index [] results_buffer).
Proof.
  split.
  - intros Hfound Hrange Hend Hsize. unfold scan_returns_all. cbv zeta.
    rewrite scan_as_push.
    rewrite filter_all.
    2:{ intros i _. unfold scan_hit.
        destruct (memmem _ []) eqn:E; [reflexivity | now apply Hfound in E]. }
    set (n := Z.to_nat (end_index - start_index)).
    assert (Hn : 0 + Z.of_nat (length (zrange start_index n)) <= CInt.INT32_MAX)
      by (rewrite zrange_length; unfold n; lia).
    destruct (push_all_count (zrange start_index n) 0 results_buffer) as [Hc _];
      [lia | exact Hn |].
    split.
    + rewrite Hc, zrange_length. unfold n. lia.
    + intros k Hk.
      rewrite push_all_values; [| lia | exact Hn | | rewrite zrange_length; unfold n; lia].
      * rewrite Z.sub_0_r, nth_zrange by (unfold n; lia). lia.
      * apply Forall_forall. intros i Hi. apply zrange_In in Hi. unfold n in Hi. lia.
  - intros Hnull. unfold scan_returns_none. cbv zeta. rewrite scan_as_push.
    rewrite filter_none; [split; reflexivity|].
    intros i _. unfold scan_hit. now rewrite Hnull.
Qed.

Lemma empty_query_scan_witness :
  scan_returns_all Libc.memmem_gnu Example.memory Example.data_ptr 0 44 0 3 []
                   (fun _ => 0)
  /\ scan_returns_none Libc.memmem_bsd Example.memory Example.data_ptr 0 44 0 3 []
                       (fun _ => 0).
Proof.
  split.
  - apply (empty_query_scan Libc.memmem_gnu).
    + intros [|y hay]; discriminate.
    + lia.
    + lia.
    + unfold CInt.INT32_MAX. lia.
  - apply (empty_query_scan Libc.memmem_bsd).
    intros [|y hay]; reflexivity.
Defined.

(** C5 as stated fails: with the BSD [memmem] an empty query matches no
    record, and where [memmem] does find an empty needle, index 2^31 comes
    back as -2^31 (here over records whose lowercased name is empty). *)
Lemma scan_returns_all_fails :
  memmem_contract Libc.memmem_bsd
  /\ ~ scan_returns_all Libc.memmem_bsd Example.memory Example.data_ptr 0 44 0 3 []
                        (fun _ => 0)
  /\ memmem_contract Libc.memmem_gnu
  /\ ~ scan_returns_all Libc.memmem_gnu (Example.mem_fill x00) Example.data_ptr 0 44
                        (2 ^ 31) (2 ^ 31 + 1) [] (fun _ => 0).
Proof.
  split; [apply memmem_bsd_contract|]. split; [|split; [apply memmem_gnu_contract|]].
  - intros [H _]. vm_compute in H. discriminate.
  - intros [_ H]. specialize (H 0 ltac:(lia)). vm_compute in H. discriminate.
Qed.

(** C9 (as amended): over a range of at most 2^31 - 1 records the match
    count is between 0 and the range size, and only the first match-count
    slots of the output are written. *)
Theorem scan_output_within_capacity
    (memmem : list byte -> list byte -> option Z) (m : mem)
    (data_ptr item_base_offset item_record_size start_index end_index : Z)
    (query : list byte) (results_buffer : Z -> Z) :
  start_index <= end_index ->
  end_index - start_index <= CInt.INT32_MAX ->
  scan_within_capacity memmem m data_ptr item_base_offset item_record_size
                       start_index end_index query results_buffer
  /\ 0 <= fst (perform_search_scan memmem m data_ptr item_base_offset item_record_size
                 start_index end_index query results_buffer).
Proof.
  intros Hrange Hsize. unfold scan_within_capacity. cbv zeta. rewrite scan_as_push.
  pose proof (filter_length_le
    (scan_hit memmem m data_ptr item_base_offset item_record_size query)
    (zrange start_index (Z.to_nat (end_index - start_index)))) as Hl.
  rewrite zrange_length in Hl.
  set (hits := filter _ _) in *.
  destruct (push_all_count hits 0 results_buffer) as [Hc Hf]; [lia | lia |].
  rewrite Hc. repeat split; try lia.
  intros k Hk. apply Hf. lia.
Qed.

Lemma scan_output_within_capacity_witness :
  scan_within_capacity Libc.memmem_bsd Example.memory Example.data_ptr 0 44 0 3
                       Example.eta (fun _ => 0)
  /\ 0 <= fst (perform_search_scan Libc.memmem_bsd Example.memory Example.data_ptr 0 44
                 0 3 Example.eta (fun _ => 0)).
Proof.
  apply scan_output_within_capacity.
  - lia.
  - unfold CInt.INT32_MAX. lia.
Defined.


(** ** Loads at addresses that do not wrap *)

Lemma load_le_bytes (m : mem) (n : nat) (p : Z) :
  0 <= p -> p + Z.of_nat n <= 2 ^ 64 ->
  load_le m p n
  = fold_right (fun k acc => byte_val (m (p + Z.of_nat k)) + 256 * acc) 0 (seq 0 n).
Proof.
  revert p. induction n as [|n IH]; intros p H0 H; [reflexivity|].
  cbn [load_le seq fold_right]. rewrite Z.add_0_r.
  destruct n as [|n']; [reflexivity|].
  rewrite ptr_add_small by lia. rewrite IH by lia.
  unfold load_uint8, byte_val. do 2 f_equal.
  rewrite <- seq_shift. generalize (seq 0 (S n')) as l. intros l.
  induction l as [|k l IHl]; [reflexivity|]. cbn [map fold_right]. rewrite IHl.
  do 4 f_equal. lia.
Qed.

Lemma load_uint32_bytes (m : mem) (p : Z) :
  0 <= p -> p + 4 <= 2 ^ 64 ->
  load_uint32 m p
  = byte_val (m p) + 256 * (byte_val (m (p + 1)) + 256 * (byte_val (m (p + 2))
      + 256 * byte_val (m (p + 3)))).
Proof.
  intros H0 H. unfold load_uint32. rewrite load_le_bytes by (simpl; lia).
  cbn [seq fold_right Z.of_nat Pos.of_succ_nat Pos.succ]. rewrite Z.add_0_r. lia.
Qed.

(** ** The striped example memory *)

Lemma record_ptr_flat (data_ptr stride i : Z) :
  0 <= data_ptr -> 0 <= i * stride -> data_ptr + i * stride < 2 ^ 64 ->
  record_ptr data_ptr 0 stride i = data_ptr + i * stride.
Proof.
  intros Hd Hi H. unfold record_ptr. rewrite (size_t_small (i * stride)) by lia.
  rewrite (ptr_add_small data_ptr 0) by lia. rewrite Z.add_0_r.
  apply ptr_add_small. lia.
Qed.

Lemma mem_striped_at (i k : Z) :
  0 <= k < 44 ->
  Example.mem_striped (Example.data_ptr + (i * 44 + k)) = if k =? 40 then x01 else x00.
Proof.
  intros H. unfold Example.mem_striped.
  replace ((Example.data_ptr + (i * 44 + k) - Example.data_ptr) mod 44) with k;
    [reflexivity|].
  replace (Example.data_ptr + (i * 44 + k) - Example.data_ptr) with (k + i * 44) by lia.
  rewrite Z.mod_add by lia. now rewrite Z.mod_small.
Qed.

Lemma mem_striped_hit (i : Z) :
  0 <= i < 2 ^ 32 ->
  scan_hit Libc.memmem_bsd Example.mem_striped Example.data_ptr 0 44 [x00] i = true.
Proof.
  intros H. unfold scan_hit, record_lower_name, string_field.
  assert (Hd : Example.data_ptr = 4096) by reflexivity.
  rewrite record_ptr_flat by lia.
  rewrite (ptr_add_small (Example.data_ptr + i * 44) 36),
          (ptr_add_small (Example.data_ptr + i * 44) 40) by lia.
  rewrite !load_uint32_bytes by lia.
  rewrite <- !Z.add_assoc. rewrite !mem_striped_at by lia.
  reflexivity.
Qed.

(** Two more hits after 2^31 - 1 of them: the counter wraps and the second
    one lands in slot -2^31. *)
Lemma push_all_overflow (A : nat) (rb : Z -> Z) :
  Z.of_nat A = 2 ^ 31 - 1 ->
  let r := push_all (zrange 0 (A + 2)) 0 rb in
  fst r = - 2 ^ 31 + 1 /\ snd r (- 2 ^ 31) = - 2 ^ 31.
Proof.
  intros HA. cbv zeta.
  rewrite zrange_app, push_all_app.
  destruct (push_all_count (zrange 0 A) 0 rb) as [Hc _].
  { lia. }
  { rewrite zrange_length. unfold CInt.INT32_MAX. lia. }
  rewrite zrange_length in Hc. rewrite Hc, HA. clear Hc.
  set (rb1 := snd (push_all (zrange 0 A) 0 rb)). clearbody rb1.
  split; vm_compute; reflexivity.
Qed.

(** C9 as stated fails once the match counter overflows: after 2^31 hits it
    has wrapped to a negative value and the next hit is written to slot
    -2^31.  Here every one of 2^31 + 1 records matches. *)
Lemma scan_within_capacity_fails :
  ~ scan_within_capacity Libc.memmem_bsd Example.mem_striped Example.data_ptr 0 44
                         0 (2 ^ 31 + 1) [x00] (fun _ => -7).
Proof.
  intros [_ H]. specialize (H (- 2 ^ 31)). cbv zeta in H.
  rewrite scan_as_push in H.
  rewrite filter_all in H.
  2:{ intros i Hi. apply zrange_In in Hi. apply mem_striped_hit.
      rewrite Z2Nat.id in Hi by discriminate.
      change (2 ^ 31 + 1 - 0) with 2147483649 in Hi. lia. }
  change (2 ^ 31 + 1 - 0) with ((2 ^ 31 - 1) + 2) in H.
  rewrite (Z2Nat.inj_add (2 ^ 31 - 1) 2) in H by discriminate.
  change (Z.to_nat 2) with 2%nat in H.
  destruct (push_all_overflow (Z.to_nat (2 ^ 31 - 1)) (fun _ => -7)) as [Hcount Hslot].
  { apply Z2Nat.id. discriminate. }
  rewrite Hcount, Hslot in H. lia.
Qed.

(** ** The lookup loop *)

Section LookupFacts.

Variable m : mem.
Variables (data_ptr item_base_offset item_record_size count : Z).
Variable target_path : list byte.

Local Abbreviation path := (record_path m data_ptr item_base_offset item_record_size).
Local Abbreviation loop :=
  (lookup_loop m data_ptr item_base_offset item_record_size count target_path).

(** The length test followed by [memcmp] decides equality with the path
    field. *)
Lemma path_test_iff (i : Z) :
  let item_ptr := ptr_add (ptr_add data_ptr item_base_offset)
                    (CInt.size_t (i * item_record_size)) in
  let path_offset := load_uint32 m (ptr_add item_ptr 28) in
  let path_len := load_uint32 m (ptr_add item_ptr 32) in
  let target_len := Z.of_nat (length target_path) in
  (path_len = target_len /\
   memcmp (load_bytes m (ptr_add data_ptr path_offset) target_len) target_path = 0)
  <-> path i = target_path.
Proof.
  cbv zeta. unfold record_path, string_field, record_ptr.
  set (item_ptr := ptr_add (ptr_add data_ptr item_base_offset) _).
  pose proof (load_uint32_range m (ptr_add item_ptr 32)) as Hr.
  split.
  - intros [-> Hcmp]. apply memcmp_eq_iff; [|exact Hcmp].
    rewrite load_bytes_length. lia.
  - intros H. assert (Hlen : load_uint32 m (ptr_add item_ptr 32)
                             = Z.of_nat (length target_path)).
    { rewrite <- H at 1. rewrite load_bytes_length. lia. }
    split; [exact Hlen|]. rewrite <- Hlen. apply memcmp_eq_iff; [|exact H].
    rewrite load_bytes_length. lia.
Qed.

Lemma lookup_loop_no_match (n : nat) (i : Z) :
  (forall k, i <= k < i + Z.of_nat n -> k < count -> path k <> target_path) ->
  loop n i = -1.
Proof.
  revert i. induction n as [|n IH]; intros i H; [reflexivity|].
  cbn [lookup_loop]. destruct (Z.ltb_spec i count) as [Hlt|Hge]; [|reflexivity].
  pose proof (path_test_iff i) as Ht. cbv zeta in Ht.
  assert (Hi : path i <> target_path) by (apply H; lia).
  rewrite <- Ht in Hi.
  destruct (Z.eqb_spec (load_uint32 m (ptr_add (ptr_add (ptr_add data_ptr item_base_offset)
              (CInt.size_t (i * item_record_size))) 32)) (Z.of_nat (length target_path)))
    as [E|E]; cbn [negb].
  - destruct (Z.eqb_spec (memcmp (load_bytes m (ptr_add data_ptr (load_uint32 m (ptr_add
              (ptr_add (ptr_add data_ptr item_base_offset)
                 (CInt.size_t (i * item_record_size))) 28)))
              (Z.of_nat (length target_path))) target_path) 0) as [E'|E'].
    + tauto.
    + apply IH. intros k Hk. apply H. lia.
  - apply IH. intros k Hk. apply H. lia.
Qed.

Lemma lookup_loop_first_match (n : nat) (i j : Z) :
  i <= j < i + Z.of_nat n -> j < count ->
  path j = target_path ->
  (forall k, i <= k < j -> path k <> target_path) ->
  loop n i = CInt.int32_t j.
Proof.
  revert i. induction n as [|n IH]; intros i Hj Hc Hm Hfirst; [lia|].
  cbn [lookup_loop]. destruct (Z.ltb_spec i count) as [Hlt|Hge]; [|lia].
  pose proof (path_test_iff i) as Ht. cbv zeta in Ht.
  destruct (Z.eqb_spec (load_uint32 m (ptr_add (ptr_add (ptr_add data_ptr item_base_offset)
              (CInt.size_t (i * item_record_size))) 32)) (Z.of_nat (length target_path)))
    as [E|E]; cbn [negb].
  - destruct (Z.eqb_spec (memcmp (load_bytes m (ptr_add data_ptr (load_uint32 m (ptr_add
              (ptr_add (ptr_add data_ptr item_base_offset)
                 (CInt.size_t (i * item_record_size))) 28)))
              (Z.of_nat (length target_path))) target_path) 0) as [E'|E'].
    + destruct (Z.eq_dec i j) as [->|Hne]; [reflexivity|].
      exfalso. apply (Hfirst i); [lia|]. apply Ht. now split.
    + destruct (Z.eq_dec i j) as [->|Hne]; [tauto|].
      apply IH; try assumption; [lia|]. intros k Hk. apply Hfirst. lia.
  - destruct (Z.eq_dec i j) as [->|Hne]; [tauto|].
    apply IH; try assumption; [lia|]. intros k Hk. apply Hfirst. lia.
Qed.

(** Once the fuel covers the records, more fuel changes nothing. *)
Lemma lookup_loop_fuel (n n' : nat) (i : Z) :
  count - i <= Z.of_nat n -> count - i <= Z.of_nat n' -> loop n i = loop n' i.
Proof.
  revert n' i. induction n as [|n IH]; intros [|n'] i H H'; cbn [lookup_loop];
    try reflexivity.
  - destruct (Z.ltb_spec i count); [lia | reflexivity].
  - destruct (Z.ltb_spec i count); [lia | reflexivity].
  - destruct (i <? count); [|reflexivity].
    destruct (negb _); [apply IH; lia|].
    destruct (_ =? 0); [reflexivity | apply IH; lia].
Qed.

Lemma lookup_no_match :
  (forall k, 0 <= k < count -> path k <> target_path) ->
  perform_path_lookup m data_ptr item_base_offset item_record_size count target_path = -1.
Proof.
  intros H. apply lookup_loop_no_match. intros k Hk Hc. apply H. lia.
Qed.

(** The first matching record is what the loop returns, after the
    conversion to [int32_t]. *)
Lemma lookup_first_match (j : Z) :
  0 <= j < count ->
  path j = target_path ->
  (forall k, 0 <= k < j -> path k <> target_path) ->
  perform_path_lookup m data_ptr item_base_offset item_record_size count target_path
  = CInt.int32_t j.
Proof.
  intros Hj Hm Hfirst. apply lookup_loop_first_match; try assumption; [|lia].
  rewrite Z2Nat.id by lia. lia.
Qed.

End LookupFacts.

(** C4 (as amended): for at most 2^31 records, [perform_path_lookup] returns
    -1 when no record's path field equals the target, and the smallest index
    whose path field equals it otherwise. *)
Theorem lookup_returns_first_match (m : mem)
    (data_ptr item_base_offset item_record_size count : Z) (target_path : list byte) :
  count <= 2 ^ 31 ->
  lookup_exact m data_ptr item_base_offset item_record_size count target_path.
Proof.
  intros Hcount. split.
  - apply lookup_no_match.
  - intros i Hi Hm Hfirst.
    rewrite (lookup_first_match _ _ _ _ _ _ i Hi Hm Hfirst).
    apply int32_t_small. lia.
Qed.

Lemma lookup_returns_first_match_witness :
  lookup_exact Example.memory Example.data_ptr 0 44 3 Example.slash_a.
Proof.
  apply lookup_returns_first_match. lia.
Defined.

Lemma mem_ones_below_path_len (bound i : Z) :
  0 <= i < 2 ^ 32 ->
  load_uint32 (Example.mem_ones_below bound)
              (ptr_add (record_ptr Example.data_ptr 0 44 i) 32)
  = if Example.data_ptr + i * 44 + 35 <? bound then 16843009
    else if bound <=? Example.data_ptr + i * 44 + 32 then 0
    else load_uint32 (Example.mem_ones_below bound) (Example.data_ptr + i * 44 + 32).
Proof.
  intros H. assert (Hd : Example.data_ptr = 4096) by reflexivity.
  rewrite record_ptr_flat by lia. rewrite ptr_add_small by lia.
  destruct (Z.ltb_spec (Example.data_ptr + i * 44 + 35) bound) as [Hlt|Hge].
  - rewrite load_uint32_bytes by lia. unfold Example.mem_ones_below.
    repeat match goal with
           | |- context [?a <? bound] => destruct (Z.ltb_spec a bound); [|lia]
           end.
    reflexivity.
  - destruct (Z.leb_spec bound (Example.data_ptr + i * 44 + 32)) as [Hle|Hgt];
      [|reflexivity].
    rewrite load_uint32_bytes by lia. unfold Example.mem_ones_below.
    repeat match goal with
           | |- context [?a <? bound] => destruct (Z.ltb_spec a bound); [lia|]
           end.
    reflexivity.
Qed.

(** C4 as stated fails beyond 2^31 records: when the first record with the
    target path is record 2^31, the function returns -2^31. *)
Lemma lookup_exact_fails :
  ~ lookup_exact (Example.mem_ones_below (Example.data_ptr + 2 ^ 31 * 44))
                 Example.data_ptr 0 44 (2 ^ 31 + 1) [].
Proof.
  intros [_ H].
  assert (Hd : Example.data_ptr = 4096) by reflexivity.
  assert (Hmatch : record_path (Example.mem_ones_below (Example.data_ptr + 2 ^ 31 * 44))
                     Example.data_ptr 0 44 (2 ^ 31) = []).
  { unfold record_path, string_field.
    rewrite (mem_ones_below_path_len (Example.data_ptr + 2 ^ 31 * 44) (2 ^ 31)) by lia.
    reflexivity. }
  assert (Hfirst : forall k, 0 <= k < 2 ^ 31 ->
            record_path (Example.mem_ones_below (Example.data_ptr + 2 ^ 31 * 44))
              Example.data_ptr 0 44 k <> []).
  { intros k Hk Heq. apply (f_equal (@length byte)) in Heq.
    unfold record_path, string_field in Heq. rewrite load_bytes_length in Heq.
    rewrite mem_ones_below_path_len in Heq by lia.
    destruct (Z.ltb_spec (Example.data_ptr + k * 44 + 35)
                         (Example.data_ptr + 2 ^ 31 * 44)) as [_|Hge]; [|lia].
    pose proof (Z2Nat.id 16843009 ltac:(discriminate)) as Hid.
    cbn [length] in Heq. rewrite Heq in Hid. discriminate Hid. }
  specialize (H (2 ^ 31) ltac:(lia) Hmatch Hfirst).
  rewrite (lookup_first_match _ Example.data_ptr 0 44 (2 ^ 31 + 1) [] (2 ^ 31)
             ltac:(lia) Hmatch Hfirst) in H.
  vm_compute in H. discriminate H.
Qed.

(** ** The comparators *)

Lemma get_item_ptr_record (data_ptr item_base_offset item_record_size : Z)
    (ascending : bool) (i : Z) :
  get_item_ptr {| ctx_data_ptr := data_ptr;
                  ctx_item_base_offset := item_base_offset;
                  ctx_item_record_size := item_record_size;
                  ctx_ascending := ascending |} i
  = record_ptr data_ptr item_base_offset item_record_size i.
Proof.
  unfold get_item_ptr, record_ptr. cbn [ctx_data_ptr ctx_item_base_offset ctx_item_record_size].
  now rewrite size_t_mul_idemp.
Qed.

(** [memcmp] over the common length followed by the length tie-break is the
    lexicographic comparison. *)
Lemma memcmp_tie_break (a b : list byte) :
  let n := Nat.min (length a) (length b) in
  let la := Z.of_nat (length a) in
  let lb := Z.of_nat (length b) in
  let cmp := memcmp (firstn n a) (firstn n b) in
  ((if cmp =? 0 then
      if la <? lb then -1 else if la >? lb then 1 else cmp
    else cmp) ?= 0) = bytes_compare a b.
Proof.
  revert b. induction a as [|x a IH]; intros [|y b]; try reflexivity.
  specialize (IH b). cbv zeta in IH |- *.
  cbn [length Nat.min firstn memcmp bytes_compare].
  destruct (Z.eqb_spec (byte_val x) (byte_val y)) as [E|E].
  - rewrite E, Z.compare_refl. rewrite <- IH.
    replace (Z.of_nat (S (length a)) <? Z.of_nat (S (length b)))
      with (Z.of_nat (length a) <? Z.of_nat (length b))
      by (apply Bool.eq_true_iff_eq; rewrite !Z.ltb_lt; lia).
    replace (Z.of_nat (S (length a)) >? Z.of_nat (S (length b)))
      with (Z.of_nat (length a) >? Z.of_nat (length b))
      by (apply Bool.eq_true_iff_eq; rewrite !Z.gtb_ltb, !Z.ltb_lt; lia).
    reflexivity.
  - destruct (Z.eqb_spec (byte_val x - byte_val y) 0) as [E'|E']; [lia|].
    rewrite <- Z.compare_sub.
    destruct (Z.compare_spec (byte_val x) (byte_val y)); [contradiction | reflexivity | reflexivity].
Qed.

Lemma compare_opp_zero (c : Z) : - 2 ^ 31 < c < 2 ^ 31 ->
  (CInt.int32_t (- c) ?= 0) = CompOpp (c ?= 0).
Proof.
  intros H. rewrite int32_t_small by lia.
  destruct (Z.compare_spec c 0), (Z.compare_spec (- c) 0); simpl; try reflexivity; lia.
Qed.

Section ComparatorFacts.

Variable m : mem.
Variables (data_ptr item_base_offset item_record_size : Z).
Variable ascending : bool.

Local Abbreviation ctx :=
  {| ctx_data_ptr := data_ptr;
     ctx_item_base_offset := item_base_offset;
     ctx_item_record_size := item_record_size;
     ctx_ascending := ascending |}.

Local Abbreviation directed c := (if ascending then c else CompOpp c).

Lemma compare_indices_string_sign (off_field len_field i j : Z) :
  (compare_indices_string off_field len_field m ctx i j ?= 0)
  = directed (bytes_compare
                (string_field m data_ptr item_base_offset item_record_size off_field len_field i)
                (string_field m data_ptr item_base_offset item_record_size off_field len_field j)).
Proof.
  unfold compare_indices_string, string_field. rewrite !get_item_ptr_record.
  cbn [ctx_data_ptr ctx_ascending].
  set (pA := record_ptr data_ptr item_base_offset item_record_size i).
  set (pB := record_ptr data_ptr item_base_offset item_record_size j).
  set (lenA := load_uint32 m (ptr_add pA len_field)).
  set (lenB := load_uint32 m (ptr_add pB len_field)).
  set (strA := ptr_add data_ptr (load_uint32 m (ptr_add pA off_field))).
  set (strB := ptr_add data_ptr (load_uint32 m (ptr_add pB off_field))).
  pose proof (load_uint32_range m (ptr_add pA len_field)) as HA. fold lenA in HA.
  pose proof (load_uint32_range m (ptr_add pB len_field)) as HB. fold lenB in HB.
  pose proof (memcmp_tie_break (load_bytes m strA lenA) (load_bytes m strB lenB)) as Ht.
  cbv zeta in Ht. rewrite !load_bytes_length, !Z2Nat.id in Ht by lia.
  assert (Hmin : Nat.min (Z.to_nat lenA) (Z.to_nat lenB)
                 = Z.to_nat (if lenA <? lenB then lenA else lenB))
    by (destruct (Z.ltb_spec lenA lenB); lia).
  rewrite Hmin in Ht.
  rewrite <- !load_bytes_firstn in Ht by (destruct (Z.ltb_spec lenA lenB); lia).
  set (cmp := if memcmp _ _ =? 0 then _ else _) in *.
  destruct ascending; [exact Ht|].
  rewrite <- Ht. apply compare_opp_zero.
  subst cmp.
  pose proof (memcmp_range
    (load_bytes m strA (if lenA <? lenB then lenA else lenB))
    (load_bytes m strB (if lenA <? lenB then lenA else lenB))) as Hr.
  destruct (_ =? 0); [destruct (lenA <? lenB); [lia|destruct (lenA >? lenB); lia] | lia].
Qed.

Lemma compare_indices_size_sign (i j : Z) :
  (compare_indices_size m ctx i j ?= 0)
  = directed (record_size m data_ptr item_base_offset item_record_size i
              ?= record_size m data_ptr item_base_offset item_record_size j).
Proof.
  unfold compare_indices_size, record_size. rewrite !get_item_ptr_record.
  cbn [ctx_ascending].
  set (a := load_int64 m _). set (b := load_int64 m _).
  rewrite Z.gtb_ltb.
  destruct (Z.compare_spec a b) as [E|E|E];
    destruct (Z.ltb_spec a b); try lia;
    destruct (Z.ltb_spec b a); try lia;
    destruct ascending; reflexivity.
Qed.

Lemma compare_indices_date_sign (i j : Z) :
  (compare_indices_date m ctx i j ?= 0)
  = directed
      (let x := record_modified m data_ptr item_base_offset item_record_size i in
       let y := record_modified m data_ptr item_base_offset item_record_size j in
       if fp_lt x y then Lt else if fp_lt y x then Gt else Eq).
Proof.
  unfold compare_indices_date, record_modified. rewrite !get_item_ptr_record.
  cbn [ctx_ascending]. cbv zeta.
  set (a := load_double m _). set (b := load_double m _).
  destruct (fp_lt a b); [destruct ascending; reflexivity|].
  destruct (fp_lt b a); destruct ascending; reflexivity.
Qed.

(** Every comparator answers with the sign of the key comparison, turned
    around for a descending sort. *)
Lemma compar_sign (key : Z) (compar : mem -> SortContext -> Z -> Z -> Z) (i j : Z) :
  select_compar key = Some compar ->
  (compar m ctx i j ?= 0)
  = directed (key_compare m data_ptr item_base_offset item_record_size key i j).
Proof.
  unfold select_compar, key_compare.
  destruct (key =? SORT_KEY_NAME);
    [intros [= <-]; apply compare_indices_string_sign|].
  destruct (key =? SORT_KEY_PATH);
    [intros [= <-]; apply compare_indices_string_sign|].
  destruct (key =? SORT_KEY_SIZE);
    [intros [= <-]; apply compare_indices_size_sign|].
  destruct (key =? SORT_KEY_DATE);
    [intros [= <-]; apply compare_indices_date_sign | discriminate].
Qed.

End ComparatorFacts.

(** ** The key orders are total preorders *)

Lemma bytes_compare_antisym (a b : list byte) :
  bytes_compare b a = CompOpp (bytes_compare a b).
Proof.
  revert b. induction a as [|x a IH]; intros [|y b]; try reflexivity.
  cbn [bytes_compare]. rewrite (Z.compare_antisym (byte_val x) (byte_val y)).
  destruct (byte_val x ?= byte_val y); simpl; [apply IH | reflexivity | reflexivity].
Qed.

Lemma bytes_compare_trans (a b c : list byte) :
  bytes_compare a b <> Gt -> bytes_compare b c <> Gt -> bytes_compare a c <> Gt.
Proof.
  revert b c. induction a as [|x a IH]; intros [|y b] [|z c]; cbn [bytes_compare];
    try congruence.
  destruct (Z.compare_spec (byte_val x) (byte_val y)) as [E1|E1|E1];
    destruct (Z.compare_spec (byte_val y) (byte_val z)) as [E2|E2|E2];
    destruct (Z.compare_spec (byte_val x) (byte_val z)) as [E3|E3|E3];
    try lia; try congruence.
  apply IH.
Qed.

(** The three-way comparison the date comparator computes. *)
Lemma fp_lt_asym (x y : fpval) : fp_lt x y = true -> fp_lt y x = false.
Proof.
  destruct x, y; simpl; try congruence. rewrite Z.ltb_lt, Z.ltb_ge. lia.
Qed.

Lemma fp_compare_trans (x y z : fpval) :
  is_nan x = false -> is_nan y = false -> is_nan z = false ->
  (if fp_lt x y then Lt else if fp_lt y x then Gt else Eq) <> Gt ->
  (if fp_lt y z then Lt else if fp_lt z y then Gt else Eq) <> Gt ->
  (if fp_lt x z then Lt else if fp_lt z x then Gt else Eq) <> Gt.
Proof.
  destruct x, y, z; simpl; try congruence;
    repeat match goal with
           | |- context [?a <? ?b] => destruct (Z.ltb_spec a b)
           end; try congruence; lia.
Qed.

Lemma fp_le_compare (x y : fpval) :
  is_nan x = false -> is_nan y = false ->
  (fp_le x y <-> (if fp_lt x y then Lt else if fp_lt y x then Gt else Eq) <> Gt).
Proof.
  destruct x, y; simpl; try congruence; try (intros _ _; split; [congruence | tauto]);
    try (intros _ _; split; [tauto | congruence]).
  intros _ _. destruct (Z.ltb_spec scaled scaled0), (Z.ltb_spec scaled0 scaled);
    split; try congruence; lia.
Qed.

Section KeyFacts.

Variable m : mem.
Variables (data_ptr item_base_offset item_record_size : Z).

Local Abbreviation kcompare := (key_compare m data_ptr item_base_offset item_record_size).
Local Abbreviation modified := (record_modified m data_ptr item_base_offset item_record_size).

Lemma key_compare_antisym (key i j : Z) :
  kcompare key j i = CompOpp (kcompare key i j).
Proof.
  unfold key_compare.
  destruct (key =? SORT_KEY_NAME); [apply bytes_compare_antisym|].
  destruct (key =? SORT_KEY_PATH); [apply bytes_compare_antisym|].
  destruct (key =? SORT_KEY_SIZE); [apply Z.compare_antisym|].
  cbv zeta. destruct (fp_lt (modified i) (modified j)) eqn:E1.
  - rewrite (fp_lt_asym _ _ E1). reflexivity.
  - destruct (fp_lt (modified j) (modified i)); reflexivity.
Qed.

Lemma key_compare_trans (key i j k : Z) :
  (key = SORT_KEY_DATE ->
   is_nan (modified i) = false /\ is_nan (modified j) = false /\ is_nan (modified k) = false) ->
  valid_sort_key key ->
  kcompare key i j <> Gt -> kcompare key j k <> Gt -> kcompare key i k <> Gt.
Proof.
  intros Hnan Hv. unfold key_compare.
  destruct (Z.eqb_spec key SORT_KEY_NAME); [apply bytes_compare_trans|].
  destruct (Z.eqb_spec key SORT_KEY_PATH); [apply bytes_compare_trans|].
  destruct (Z.eqb_spec key SORT_KEY_SIZE).
  - rewrite !Z.compare_le_iff. lia.
  - destruct Hv as [Hv|[Hv|[Hv|Hv]]]; try contradiction.
    destruct (Hnan Hv) as [Hi [Hj Hk]]. cbv zeta. now apply fp_compare_trans.
Qed.

Lemma key_le_compare (key i j : Z) :
  (key = SORT_KEY_DATE -> is_nan (modified i) = false /\ is_nan (modified j) = false) ->
  valid_sort_key key ->
  (key_le m data_ptr item_base_offset item_record_size key i j <-> kcompare key i j <> Gt).
Proof.
  intros Hnan Hv. unfold key_le, key_compare, bytes_le.
  destruct (Z.eqb_spec key SORT_KEY_NAME); [reflexivity|].
  destruct (Z.eqb_spec key SORT_KEY_PATH); [reflexivity|].
  destruct (Z.eqb_spec key SORT_KEY_SIZE); [now rewrite Z.compare_le_iff|].
  destruct Hv as [Hv|[Hv|[Hv|Hv]]]; try contradiction.
  destruct (Hnan Hv) as [Hi Hj]. cbv zeta. now apply fp_le_compare.
Qed.

Lemma select_compar_valid (key : Z) (compar : mem -> SortContext -> Z -> Z -> Z) :
  select_compar key = Some compar -> valid_sort_key key.
Proof.
  unfold select_compar, valid_sort_key.
  destruct (Z.eqb_spec key SORT_KEY_NAME); [tauto|].
  destruct (Z.eqb_spec key SORT_KEY_PATH); [tauto|].
  destruct (Z.eqb_spec key SORT_KEY_SIZE); [tauto|].
  destruct (Z.eqb_spec key SORT_KEY_DATE); [tauto | discriminate].
Qed.

Lemma select_compar_invalid (key : Z) :
  ~ valid_sort_key key -> select_compar key = None.
Proof.
  unfold select_compar, valid_sort_key. intros H.
  destruct (Z.eqb_spec key SORT_KEY_NAME); [tauto|].
  destruct (Z.eqb_spec key SORT_KEY_PATH); [tauto|].
  destruct (Z.eqb_spec key SORT_KEY_SIZE); [tauto|].
  destruct (Z.eqb_spec key SORT_KEY_DATE); [tauto | reflexivity].
Qed.

Variable ascending : bool.

Local Abbreviation ctx :=
  {| ctx_data_ptr := data_ptr;
     ctx_item_base_offset := item_base_offset;
     ctx_item_record_size := item_record_size;
     ctx_ascending := ascending |}.

(** A comparator result of at most zero says the two keys are in the order
    the direction asks for. *)
Lemma compar_le_iff (key : Z) (compar : mem -> SortContext -> Z -> Z -> Z) (i j : Z) :
  select_compar key = Some compar ->
  (key = SORT_KEY_DATE -> is_nan (modified i) = false /\ is_nan (modified j) = false) ->
  (compar m ctx i j <= 0 <->
   key_ordered m data_ptr item_base_offset item_record_size key ascending i j).
Proof.
  intros Hsel Hnan. pose proof (select_compar_valid _ _ Hsel) as Hv.
  pose proof (compar_sign m data_ptr item_base_offset item_record_size ascending
                key compar i j Hsel) as Hs.
  rewrite <- Z.compare_le_iff, Hs. unfold key_ordered.
  destruct ascending.
  - now rewrite key_le_compare.
  - rewrite key_le_compare by tauto. rewrite (key_compare_antisym key i j).
    reflexivity.
Qed.

Lemma compar_consistent (key : Z) (compar : mem -> SortContext -> Z -> Z -> Z)
    (l : list Z) :
  select_compar key = Some compar ->
  (key = SORT_KEY_DATE -> no_nan_dates m data_ptr item_base_offset item_record_size l) ->
  consistent_on (compar m ctx) l.
Proof.
  intros Hsel Hnan. pose proof (select_compar_valid _ _ Hsel) as Hv.
  pose proof (compar_sign m data_ptr item_base_offset item_record_size ascending
                key compar) as Hs.
  split.
  - intros a b _ _. pose proof (Hs a b Hsel) as Hab. pose proof (Hs b a Hsel) as Hba.
    rewrite (key_compare_antisym key a b) in Hba.
    destruct (Z.compare_spec (compar m ctx a b) 0) as [E1|E1|E1];
      destruct (Z.compare_spec (compar m ctx b a) 0) as [E2|E2|E2];
      destruct ascending; destruct (kcompare key a b); simpl in *; try discriminate; lia.
  - intros a b c Ia Ib Ic.
    rewrite <- !Z.compare_le_iff, !Hs by exact Hsel.
    assert (Hn : key = SORT_KEY_DATE ->
                 is_nan (modified a) = false /\ is_nan (modified b) = false
                 /\ is_nan (modified c) = false)
      by (intros E; repeat split; now apply (Hnan E)).
    destruct ascending.
    + now apply key_compare_trans.
    + rewrite <- !key_compare_antisym. intros H1 H2.
      apply (key_compare_trans key c b a); tauto.
Qed.

End KeyFacts.

(** ** Sorted permutations *)

Lemma StronglySorted_In_impl {A : Type} (R R' : A -> A -> Prop) (l : list A) :
  (forall a b, In a l -> In b l -> R a b -> R' a b) ->
  StronglySorted R l -> StronglySorted R' l.
Proof.
  intros H Hs. induction Hs as [|x l Hs IH Hx]; constructor.
  - apply IH. intros a b Ia Ib. apply H; now right.
  - rewrite Forall_forall in Hx |- *. intros y Hy.
    apply H; [now left | now right | now apply Hx].
Qed.

(** Under an order that tells different elements apart, a list has one
    sorted arrangement only. *)
Lemma sorted_perm_unique {A : Type} (R : A -> A -> Prop) (l1 l2 : list A) :
  (forall a b, In a l1 -> In b l1 -> R a b -> R b a -> a = b) ->
  StronglySorted R l1 -> StronglySorted R l2 -> Permutation l1 l2 -> l1 = l2.
Proof.
  revert l2. induction l1 as [|x l1 IH]; intros l2 Hanti H1 H2 Hp.
  - now apply Permutation_nil in Hp.
  - destruct l2 as [|y l2]; [now apply Permutation_sym, Permutation_nil in Hp|].
    inversion H1 as [|? ? H1' Hx]; subst. inversion H2 as [|? ? H2' Hy]; subst.
    rewrite Forall_forall in Hx, Hy.
    assert (Hxy : x = y).
    { assert (Ix : In x (y :: l2)) by (apply (Permutation_in _ Hp); now left).
      assert (Iy : In y (x :: l1))
        by (apply (Permutation_in _ (Permutation_sym Hp)); now left).
      destruct Ix as [->|Ix]; [reflexivity|].
      destruct Iy as [->|Iy]; [reflexivity|].
      apply Hanti; [now left | now right | now apply Hx | now apply Hy]. }
    subst y. f_equal. apply IH; try assumption.
    + intros a b Ia Ib. apply Hanti; now right.
    + now apply Permutation_cons_inv in Hp.
Qed.

Section SortFacts.

Variable qsort_r : (Z -> Z -> Z) -> list Z -> list Z.
Hypothesis qsort_r_ok : qsort_r_contract qsort_r.

Variable m : mem.
Variables (data_ptr item_base_offset item_record_size : Z).
Variable key : Z.
Variable ascending : bool.

Local Abbreviation ordered :=
  (key_ordered m data_ptr item_base_offset item_record_size key ascending).
Local Abbreviation sort indices count :=
  (perform_index_sort qsort_r m indices count data_ptr item_base_offset item_record_size
                      key ascending).

(** Sorting the whole array is one call of [qsort_r] on it. *)
Lemma sort_whole_array (indices : list Z) (compar : mem -> SortContext -> Z -> Z -> Z) :
  select_compar key = Some compar ->
  sort indices (Z.of_nat (length indices))
  = qsort_r (compar m {| ctx_data_ptr := data_ptr;
                         ctx_item_base_offset := item_base_offset;
                         ctx_item_record_size := item_record_size;
                         ctx_ascending := ascending |}) indices.
Proof.
  intros Hsel. unfold perform_index_sort. rewrite Hsel, Nat2Z.id.
  now rewrite firstn_all, skipn_all, app_nil_r.
Qed.

Lemma valid_key_selects : valid_sort_key key -> exists compar, select_compar key = Some compar.
Proof.
  unfold select_compar. intros [E | [E | [E | E]]]; rewrite E; simpl; eauto.
Qed.

Lemma sort_sorted (indices : list Z) :
  valid_sort_key key ->
  (key = SORT_KEY_DATE ->
   no_nan_dates m data_ptr item_base_offset item_record_size indices) ->
  StronglySorted ordered (sort indices (Z.of_nat (length indices))).
Proof.
  intros Hv Hnan. destruct (valid_key_selects Hv) as [compar Hsel].
  rewrite (sort_whole_array indices compar Hsel).
  pose proof (qsort_r_permutes _ qsort_r_ok
                (compar m {| ctx_data_ptr := data_ptr;
                             ctx_item_base_offset := item_base_offset;
                             ctx_item_record_size := item_record_size;
                             ctx_ascending := ascending |}) indices) as Hp.
  apply (StronglySorted_In_impl
           (fun a b => compar m {| ctx_data_ptr := data_ptr;
                                   ctx_item_base_offset := item_base_offset;
                                   ctx_item_record_size := item_record_size;
                                   ctx_ascending := ascending |} a b <= 0)).
  - intros a b Ia Ib Hab.
    apply (compar_le_iff m data_ptr item_base_offset item_record_size ascending
             key compar a b Hsel); [|exact Hab].
    intros E. split; apply (Hnan E); apply (Permutation_in _ (Permutation_sym Hp));
      assumption.
  - apply (qsort_r_sorts _ qsort_r_ok).
    now apply (compar_consistent m data_ptr item_base_offset item_record_size ascending key).
Qed.

(** When no two different entries have equal keys, the outcome of the sort
    is the one sorted arrangement of the array. *)
Lemma sort_unique (indices sorted : list Z) :
  valid_sort_key key ->
  (key = SORT_KEY_DATE ->
   no_nan_dates m data_ptr item_base_offset item_record_size indices) ->
  (forall a b, In a indices -> In b indices -> ordered a b -> ordered b a -> a = b) ->
  Permutation indices sorted ->
  StronglySorted ordered sorted ->
  sort indices (Z.of_nat (length indices)) = sorted.
Proof.
  intros Hv Hnan Hanti Hp Hs.
  pose proof (sort_sorted indices Hv Hnan) as Hs'.
  destruct (valid_key_selects Hv) as [compar Hsel].
  pose proof (qsort_r_permutes _ qsort_r_ok
                (compar m {| ctx_data_ptr := data_ptr;
                             ctx_item_base_offset := item_base_offset;
                             ctx_item_record_size := item_record_size;
                             ctx_ascending := ascending |}) indices) as Hp'.
  rewrite <- (sort_whole_array indices compar Hsel) in Hp'.
  apply (sorted_perm_unique ordered); try assumption.
  - intros a b Ia Ib.
    apply Hanti; apply (Permutation_in _ (Permutation_sym Hp')); assumption.
  - now rewrite <- Hp'.
Qed.

End SortFacts.



(** C3: the array after [perform_index_sort] is a permutation of the array
    before, whatever the key, the direction and the count. *)
Theorem sort_is_permutation (qsort_r : (Z -> Z -> Z) -> list Z -> list Z) (m : mem)
    (indices : list Z) (count data_ptr item_base_offset item_record_size key : Z)
    (ascending : bool) :
  qsort_r_contract qsort_r ->
  Permutation indices
    (perform_index_sort qsort_r m indices count data_ptr item_base_offset
                        item_record_size key ascending).
Proof.
  intros Hq. unfold perform_index_sort.
  destruct (select_compar key) as [compar|]; [|reflexivity].
  rewrite <- (firstn_skipn (Z.to_nat count) indices) at 1.
  apply Permutation_app_tail, (qsort_r_permutes _ Hq).
Qed.

Lemma sort_is_permutation_witness :
  Permutation [0; 1; 2]
    (perform_index_sort Libc.qsort_r_insertion Example.memory [0; 1; 2] 3
                        Example.data_ptr 0 44 SORT_KEY_NAME true).
Proof.
  apply sort_is_permutation, qsort_r_insertion_contract.
Defined.

(** ** The BSD quicksort only rearranges the array *)

Lemma set_nth_perm_cons (a : list Z) (j : nat) (x y : Z) :
  nth_error a j = Some x -> Permutation (y :: a) (x :: Libc.set_nth j y a).
Proof.
  revert j. induction a as [|z a IH]; intros [|j] H; simpl in H; try discriminate.
  - injection H as ->. apply perm_swap.
  - simpl. rewrite (perm_swap z y a). rewrite (IH j H). apply perm_swap.
Qed.

Lemma swap_perm (a : list Z) (i j : nat) : Permutation a (Libc.swap a i j).
Proof.
  unfold Libc.swap.
  destruct (nth_error a i) as [x|] eqn:Hi; [|reflexivity].
  destruct (nth_error a j) as [y|] eqn:Hj; [|reflexivity].
  revert i j Hi Hj. induction a as [|z a IH]; intros [|i] [|j] Hi Hj;
    simpl in Hi, Hj; try discriminate; simpl.
  - injection Hi as ->. injection Hj as ->. reflexivity.
  - injection Hi as ->. now apply set_nth_perm_cons.
  - injection Hj as ->. now apply set_nth_perm_cons.
  - apply perm_skip. now apply IH.
Qed.

Lemma sift_perm (cmp : Z -> Z -> Z) (fuel : nat) (a : list Z) (lo pl : nat) :
  Permutation a (Libc.sift cmp fuel a lo pl).
Proof.
  revert a pl. induction fuel as [|fuel IH]; intros a pl; simpl; [reflexivity|].
  destruct (_ && _); [|reflexivity].
  rewrite <- IH. apply swap_perm.
Qed.

Lemma insertion_perm (cmp : Z -> Z -> Z) (a : list Z) (lo n : nat) :
  Permutation a (Libc.insertion cmp a lo n).
Proof.
  unfold Libc.insertion. generalize (seq (lo + 1) (n - 1)). intros l.
  revert a. induction l as [|pm l IH]; intros a; simpl; [reflexivity|].
  rewrite <- IH. apply sift_perm.
Qed.

Lemma partition_up_perm (cmp : Z -> Z -> Z) (fuel : nat) (a : list Z)
    (lo pa pb pc : nat) (swapped : bool) :
  Permutation a (fst (fst (fst (Libc.partition_up cmp fuel a lo pa pb pc swapped)))).
Proof.
  revert a pa pb swapped. induction fuel as [|fuel IH]; intros a pa pb swapped;
    simpl; [reflexivity|].
  destruct (_ && _); [|reflexivity].
  destruct (_ =? _).
  - rewrite <- IH. apply swap_perm.
  - apply IH.
Qed.

Lemma partition_down_perm (cmp : Z -> Z -> Z) (fuel : nat) (a : list Z)
    (lo pb pc pd : nat) (swapped : bool) :
  Permutation a (fst (fst (fst (Libc.partition_down cmp fuel a lo pb pc pd swapped)))).
Proof.
  revert a pc pd swapped. induction fuel as [|fuel IH]; intros a pc pd swapped;
    simpl; [reflexivity|].
  destruct (_ && _); [|reflexivity].
  destruct (_ =? _).
  - rewrite <- IH. apply swap_perm.
  - apply IH.
Qed.

Lemma partition_perm (cmp : Z -> Z -> Z) (fuel n : nat) (a : list Z)
    (lo pa pb pc pd : nat) (swapped : bool) :
  Permutation a
    (fst (fst (fst (fst (fst (Libc.partition cmp fuel n a lo pa pb pc pd swapped)))))).
Proof.
  revert a pa pb pc pd swapped.
  induction fuel as [|fuel IH]; intros a pa pb pc pd swapped; simpl; [reflexivity|].
  pose proof (partition_up_perm cmp n a lo pa pb pc swapped) as Hu.
  destruct (Libc.partition_up cmp n a lo pa pb pc swapped) as [[[a1 pa1] pb1] s1].
  simpl in Hu.
  pose proof (partition_down_perm cmp n a1 lo pb1 pc pd s1) as Hd.
  destruct (Libc.partition_down cmp n a1 lo pb1 pc pd s1) as [[[a2 pc2] pd2] s2].
  simpl in Hd.
  destruct (_ <? _)%nat; simpl.
  - now rewrite Hu.
  - rewrite <- IH. rewrite Hu, Hd. apply swap_perm.
Qed.

Lemma vecswap_perm (a : list Z) (i j r : nat) : Permutation a (Libc.vecswap a i j r).
Proof.
  revert a i j. induction r as [|r IH]; intros a i j; simpl; [reflexivity|].
  rewrite <- IH. apply swap_perm.
Qed.

Lemma qsort_from_perm (cmp : Z -> Z -> Z) (fuel : nat) (a : list Z) (lo n : nat) :
  Permutation a (Libc.qsort_from cmp fuel a lo n).
Proof.
  revert a lo n. induction fuel as [|fuel IH]; intros a lo n; [reflexivity|].
  cbn [Libc.qsort_from].
  destruct (n <? 7)%nat; [apply insertion_perm|].
  match goal with
  | |- context [Libc.swap a lo ?p] => generalize p; intros pm
  end.
  cbv zeta.
  pose proof (partition_perm cmp n n (Libc.swap a lo pm) lo (lo + 1) (lo + 1)
                (lo + (n - 1)) (lo + (n - 1)) false) as Hp.
  destruct (Libc.partition cmp n n (Libc.swap a lo pm) lo (lo + 1) (lo + 1)
              (lo + (n - 1)) (lo + (n - 1)) false) as [[[[[a1 pa] pb] pc] pd] s].
  simpl in Hp.
  assert (Ha : Permutation a a1) by (rewrite <- Hp; apply swap_perm).
  destruct (negb s).
  - rewrite Ha. apply insertion_perm.
  - set (x := Libc.vecswap (Libc.vecswap a1 _ _ _) _ _ _).
    assert (Hx : Permutation a x).
    { subst x. rewrite <- !vecswap_perm. exact Ha. }
    clearbody x.
    destruct (_ <? _)%nat; destruct (_ <? _)%nat; rewrite <- ?IH; exact Hx.
Qed.

Lemma qsort_r_bsd_perm (cmp : Z -> Z -> Z) (l : list Z) :
  Permutation l (Libc.qsort_r_bsd cmp l).
Proof. apply qsort_from_perm. Qed.

(** C8 (as amended): sorting an array that is already sorted under the key
    and direction, and in which no two different entries have equal keys,
    leaves it unchanged. *)
Theorem sort_keeps_strictly_sorted (qsort_r : (Z -> Z -> Z) -> list Z -> list Z)
    (m : mem) (data_ptr item_base_offset item_record_size key : Z) (ascending : bool)
    (indices : list Z) :
  qsort_r_contract qsort_r ->
  valid_sort_key key ->
  (key = SORT_KEY_DATE ->
   no_nan_dates m data_ptr item_base_offset item_record_size indices) ->
  (forall a b, In a indices -> In b indices ->
     key_ordered m data_ptr item_base_offset item_record_size key ascending a b ->
     key_ordered m data_ptr item_base_offset item_record_size key ascending b a ->
     a = b) ->
  sort_keeps_sorted qsort_r m data_ptr item_base_offset item_record_size
                    key ascending indices.
Proof.
  intros Hq Hv Hnan Hanti Hs. now apply sort_unique.
Qed.

Lemma sort_keeps_strictly_sorted_witness :
  perform_index_sort Libc.qsort_r_insertion Example.memory [1; 2; 0] 3
                     Example.data_ptr 0 44 SORT_KEY_SIZE true
  = [1; 2; 0].
Proof.
  apply (sort_keeps_strictly_sorted Libc.qsort_r_insertion Example.memory
           Example.data_ptr 0 44 SORT_KEY_SIZE true [1; 2; 0]).
  - apply qsort_r_insertion_contract.
  - right. right. left. reflexivity.
  - discriminate.
  - intros a b [<- | [<- | [<- | [ ] ] ] ] [<- | [<- | [<- | [ ] ] ] ] Hab Hba;
      try reflexivity; vm_compute in Hab, Hba; congruence.
  - repeat constructor; vm_compute; discriminate.
Defined.

(** C8 as stated fails when keys repeat.  Seven records of equal size are in
    order whatever their arrangement; the BSD quicksort exchanges the first
    entry with the middle one to make it the pivot, finds every other entry
    equal to it and moves nothing back.  The array that comes back is still
    ordered by size and has the same entries, but is not the one passed in. *)
Lemma sort_keeps_sorted_fails :
  let m := Example.mem_fill x00 in
  let sorted := [0; 1; 2; 3; 4; 5; 6] in
  let after := perform_index_sort Libc.qsort_r_bsd m sorted 7 Example.data_ptr
                                  0 44 SORT_KEY_SIZE true in
  after = [3; 1; 2; 0; 4; 5; 6]
  /\ Permutation sorted after
  /\ StronglySorted (key_ordered m Example.data_ptr 0 44 SORT_KEY_SIZE true) after
  /\ ~ sort_keeps_sorted Libc.qsort_r_bsd m Example.data_ptr 0 44 SORT_KEY_SIZE
                         true sorted.
Proof.
  cbv zeta.
  assert (E : perform_index_sort Libc.qsort_r_bsd (Example.mem_fill x00)
                [0; 1; 2; 3; 4; 5; 6] 7 Example.data_ptr 0 44 SORT_KEY_SIZE true
              = [3; 1; 2; 0; 4; 5; 6]) by (vm_compute; reflexivity).
  rewrite E. split; [reflexivity|]. split; [|split].
  - rewrite <- E. unfold perform_index_sort.
    change (select_compar SORT_KEY_SIZE) with (Some compare_indices_size).
    change (Z.to_nat 7) with 7%nat. cbn [firstn skipn]. rewrite app_nil_r.
    apply qsort_r_bsd_perm.
  - repeat constructor; vm_compute; discriminate.
  - unfold sort_keeps_sorted. intros H.
    assert (Hs : StronglySorted
                   (key_ordered (Example.mem_fill x00) Example.data_ptr 0 44
                                SORT_KEY_SIZE true) [0; 1; 2; 3; 4; 5; 6]).
    { repeat constructor; vm_compute; discriminate. }
    apply H in Hs. change (Z.of_nat (length [0; 1; 2; 3; 4; 5; 6])) with 7 in Hs.
    rewrite E in Hs. discriminate Hs.
Qed.

(** C10: for a key outside the four [SearchSortKey] values,
    [perform_index_sort] leaves the array as it is. *)
Theorem sort_ignores_unknown_key (qsort_r : (Z -> Z -> Z) -> list Z -> list Z) (m : mem)
    (indices : list Z) (count data_ptr item_base_offset item_record_size key : Z)
    (ascending : bool) :
  ~ valid_sort_key key ->
  perform_index_sort qsort_r m indices count data_ptr item_base_offset
                     item_record_size key ascending
  = indices.
Proof.
  intros Hk. unfold perform_index_sort. now rewrite (select_compar_invalid key Hk).
Qed.

Lemma sort_ignores_unknown_key_witness :
  perform_index_sort Libc.qsort_r_insertion Example.memory [2; 0; 1] 3
                     Example.data_ptr 0 44 4 true
  = [2; 0; 1].
Proof.
  apply sort_ignores_unknown_key.
  unfold valid_sort_key, SORT_KEY_NAME, SORT_KEY_PATH, SORT_KEY_SIZE, SORT_KEY_DATE. lia.
Defined.

(** ** The example of the specification *)

Lemma occurs_decide (needle hay : list byte) :
  occurs needle hay <-> Libc.first_occurrence needle hay 0 <> None.
Proof.
  symmetry. apply first_occurrence_iff.
Qed.

(** C7: on three records named "Beta", "alpha", "Gamma", with paths "/b",
    "/a", "/g", lowercased names "beta", "alpha", "gamma" and sizes 300, 100,
    200, sorting [0,1,2] by name gives [0,2,1] and by size [1,2,0], both
    ascending; the scan for "eta" over the three records returns index 0
    only; the lookup of "/a" returns 1 and that of "/z" returns -1. *)
Theorem three_record_example
    (memmem : list byte -> list byte -> option Z)
    (qsort_r : (Z -> Z -> Z) -> list Z -> list Z)
    (m : mem) (data_ptr item_base_offset item_record_size : Z)
    (results_buffer : Z -> Z) :
  memmem_contract memmem ->
  qsort_r_contract qsort_r ->
  example_records m data_ptr item_base_offset item_record_size ->
  perform_index_sort qsort_r m [0; 1; 2] 3 data_ptr item_base_offset item_record_size
                     SORT_KEY_NAME true = [0; 2; 1]
  /\ perform_index_sort qsort_r m [0; 1; 2] 3 data_ptr item_base_offset item_record_size
                        SORT_KEY_SIZE true = [1; 2; 0]
  /\ (let r := perform_search_scan memmem m data_ptr item_base_offset item_record_size
                 0 3 Example.eta results_buffer in
      fst r = 1 /\ scan_output r = [0])
  /\ perform_path_lookup m data_ptr item_base_offset item_record_size 3 Example.slash_a = 1
  /\ perform_path_lookup m data_ptr item_base_offset item_record_size 3 Example.slash_z = -1.
Proof.
  intros Hm Hq (Hn0 & Hp0 & Hl0 & Hs0 & Hn1 & Hp1 & Hl1 & Hs1 & Hn2 & Hp2 & Hl2 & Hs2).
  split; [|split; [|split; [|split]]].
  - apply (sort_unique qsort_r Hq m data_ptr item_base_offset item_record_size
             SORT_KEY_NAME true [0; 1; 2] [0; 2; 1]).
    + left. reflexivity.
    + discriminate.
    + intros a b [<- | [<- | [<- | [ ] ] ] ] [<- | [<- | [<- | [ ] ] ] ];
        try reflexivity; unfold key_ordered, key_le; cbn [Z.eqb SORT_KEY_NAME];
        rewrite ?Hn0, ?Hn1, ?Hn2; intros Hab Hba; exfalso;
        first [apply Hab; reflexivity | apply Hba; reflexivity].
    + apply perm_skip, perm_swap.
    + repeat constructor; unfold key_ordered, key_le; cbn [Z.eqb SORT_KEY_NAME];
        rewrite ?Hn0, ?Hn1, ?Hn2; discriminate.
  - apply (sort_unique qsort_r Hq m data_ptr item_base_offset item_record_size
             SORT_KEY_SIZE true [0; 1; 2] [1; 2; 0]).
    + right. right. left. reflexivity.
    + discriminate.
    + intros a b [<- | [<- | [<- | [ ] ] ] ] [<- | [<- | [<- | [ ] ] ] ];
        try reflexivity; unfold key_ordered, key_le;
        cbn [Z.eqb Pos.eqb SORT_KEY_NAME SORT_KEY_PATH SORT_KEY_SIZE];
        rewrite ?Hs0, ?Hs1, ?Hs2; lia.
    + apply (Permutation_cons_append [1; 2] 0).
    + repeat constructor; unfold key_ordered, key_le;
        cbn [Z.eqb Pos.eqb SORT_KEY_NAME SORT_KEY_PATH SORT_KEY_SIZE];
        rewrite ?Hs0, ?Hs1, ?Hs2; lia.
  - destruct (scan_output_hits memmem m data_ptr item_base_offset item_record_size
                0 3 Example.eta results_buffer) as [Hcount Hout];
      [lia | lia | unfold CInt.INT32_MAX; lia |].
    cbv zeta. rewrite Hcount, Hout.
    assert (Hq' : Example.eta <> []) by discriminate.
    pose proof (scan_hit_occurs memmem m data_ptr item_base_offset item_record_size
                  Example.eta 0 Hm Hq') as H0.
    pose proof (scan_hit_occurs memmem m data_ptr item_base_offset item_record_size
                  Example.eta 1 Hm Hq') as H1.
    pose proof (scan_hit_occurs memmem m data_ptr item_base_offset item_record_size
                  Example.eta 2 Hm Hq') as H2.
    rewrite Hl0, occurs_decide in H0. rewrite Hl1, occurs_decide in H1.
    rewrite Hl2, occurs_decide in H2.
    change (Z.to_nat (3 - 0)) with 3%nat. cbn [zrange filter Z.add Pos.add Pos.succ].
    destruct (scan_hit memmem m data_ptr item_base_offset item_record_size Example.eta 0);
      [|exfalso; assert (false = true) by (apply H0; vm_compute; discriminate);
        discriminate].
    destruct (scan_hit memmem m data_ptr item_base_offset item_record_size Example.eta 1);
      [exfalso; apply (proj1 H1 eq_refl); reflexivity|].
    destruct (scan_hit memmem m data_ptr item_base_offset item_record_size Example.eta 2);
      [exfalso; apply (proj1 H2 eq_refl); reflexivity|].
    split; reflexivity.
  - rewrite (lookup_first_match m data_ptr item_base_offset item_record_size 3
               Example.slash_a 1); [reflexivity | lia | exact Hp1 |].
    intros k Hk. replace k with 0 by lia. rewrite Hp0. discriminate.
  - apply lookup_no_match. intros k Hk.
    assert (Hcases : k = 0 \/ k = 1 \/ k = 2) by lia.
    destruct Hcases as [-> | [-> | ->]]; rewrite ?Hp0, ?Hp1, ?Hp2; discriminate.
Qed.

Lemma three_record_example_witness :
  perform_index_sort Libc.qsort_r_insertion Example.memory [0; 1; 2] 3
                     Example.data_ptr 0 44 SORT_KEY_NAME true = [0; 2; 1]
  /\ perform_index_sort Libc.qsort_r_insertion Example.memory [0; 1; 2] 3
                        Example.data_ptr 0 44 SORT_KEY_SIZE true = [1; 2; 0]
  /\ (let r := perform_search_scan Libc.memmem_bsd Example.memory Example.data_ptr 0 44
                 0 3 Example.eta (fun _ => 0) in
      fst r = 1 /\ scan_output r = [0])
  /\ perform_path_lookup Example.memory Example.data_ptr 0 44 3 Example.slash_a = 1
  /\ perform_path_lookup Example.memory Example.data_ptr 0 44 3 Example.slash_z = -1.
Proof.
  apply three_record_example.
  - apply memmem_bsd_contract.
  - apply qsort_r_insertion_contract.
  - unfold example_records. repeat split; vm_compute; reflexivity.
Defined.

(** ** Reads stay in a well-formed buffer *)

Section BufferFacts.

Variables (m1 m2 : mem).
Variables (data_ptr buf_len item_base_offset item_record_size : Z).

Hypothesis layout : layout_ok data_ptr buf_len item_base_offset item_record_size.
Hypothesis agree : agree_on m1 m2 data_ptr buf_len.

Local Abbreviation rptr := (record_ptr data_ptr item_base_offset item_record_size).
Local Abbreviation ok := (record_ok m1 data_ptr buf_len item_base_offset item_record_size).

Lemma load_le_agree (n : nat) (off : Z) :
  0 <= off -> off + Z.of_nat n <= buf_len ->
  load_le m1 (data_ptr + off) n = load_le m2 (data_ptr + off) n.
Proof.
  destruct layout as [[Hd [Hb Hw]] _]. intros H0 H.
  rewrite !load_le_bytes by lia.
  assert (Hin : forall k, In k (seq 0 n) -> (k < n)%nat)
    by (intros k Hk; apply in_seq in Hk; lia).
  revert Hin. generalize (seq 0 n) as l. induction l as [|k l IH]; intros Hin;
    [reflexivity|].
  cbn [fold_right]. rewrite IH by (intros j Hj; apply Hin; now right).
  rewrite (agree (data_ptr + off + Z.of_nat k)); [reflexivity|].
  specialize (Hin k (or_introl eq_refl)). lia.
Qed.

Lemma load_bytes_agree (off n : Z) :
  0 <= off -> off + n <= buf_len ->
  load_bytes m1 (ptr_add data_ptr off) n = load_bytes m2 (ptr_add data_ptr off) n.
Proof.
  destruct layout as [[Hd [Hb Hw]] _]. intros H0 H. unfold load_bytes.
  apply map_ext_in. intros k Hk. apply in_seq in Hk.
  rewrite (ptr_add_small data_ptr off) by lia.
  rewrite ptr_add_small by lia. apply agree. lia.
Qed.

(** Where record [i] starts, once it is known to lie in the buffer. *)
Lemma record_ptr_in_buffer (i : Z) :
  0 <= i -> item_base_offset + i * item_record_size + 44 <= buf_len ->
  rptr i = data_ptr + (item_base_offset + i * item_record_size)
  /\ 0 <= item_base_offset + i * item_record_size.
Proof.
  destruct layout as [[Hd [Hb Hw]] [Hbase Hstride]]. intros Hi H.
  assert (0 <= i * item_record_size) by nia.
  unfold record_ptr. rewrite (size_t_small (i * item_record_size)) by lia.
  rewrite (ptr_add_small data_ptr) by lia. rewrite ptr_add_small by lia.
  split; lia.
Qed.

Lemma field_uint32_agree (i field : Z) :
  ok i -> 0 <= field -> field + 4 <= 44 ->
  load_uint32 m1 (ptr_add (rptr i) field) = load_uint32 m2 (ptr_add (rptr i) field).
Proof.
  destruct layout as [[Hd [Hb Hw]] _]. intros [Hi [Hr _]] H0 H.
  destruct (record_ptr_in_buffer i Hi Hr) as [-> Hp].
  rewrite ptr_add_small by lia. rewrite <- Z.add_assoc.
  apply (load_le_agree 4); simpl; lia.
Qed.

Lemma field_uint64_agree (i field : Z) :
  ok i -> 0 <= field -> field + 8 <= 44 ->
  load_le m1 (ptr_add (rptr i) field) 8 = load_le m2 (ptr_add (rptr i) field) 8.
Proof.
  destruct layout as [[Hd [Hb Hw]] _]. intros [Hi [Hr _]] H0 H.
  destruct (record_ptr_in_buffer i Hi Hr) as [-> Hp].
  rewrite ptr_add_small by lia. rewrite <- Z.add_assoc.
  apply (load_le_agree 8); simpl; lia.
Qed.

(** Any prefix of a string field that lies in the buffer reads the same. *)
Lemma string_prefix_agree (off_field len_field i n : Z) :
  ok i -> 0 <= off_field -> off_field + 4 <= 44 ->
  span_in_buffer m1 data_ptr buf_len item_base_offset item_record_size off_field len_field i ->
  n <= load_uint32 m1 (ptr_add (rptr i) len_field) ->
  load_bytes m1 (ptr_add data_ptr (load_uint32 m1 (ptr_add (rptr i) off_field))) n
  = load_bytes m2 (ptr_add data_ptr (load_uint32 m2 (ptr_add (rptr i) off_field))) n.
Proof.
  intros Hok H0 H Hspan Hn. unfold span_in_buffer in Hspan.
  rewrite <- (field_uint32_agree i off_field Hok H0 H).
  pose proof (load_uint32_range m1 (ptr_add (rptr i) off_field)).
  apply load_bytes_agree; lia.
Qed.

Lemma string_field_agree (off_field len_field i : Z) :
  ok i -> 0 <= off_field -> off_field + 4 <= 44 -> 0 <= len_field -> len_field + 4 <= 44 ->
  span_in_buffer m1 data_ptr buf_len item_base_offset item_record_size off_field len_field i ->
  string_field m1 data_ptr item_base_offset item_record_size off_field len_field i
  = string_field m2 data_ptr item_base_offset item_record_size off_field len_field i.
Proof.
  intros Hok H0 H H0' H' Hspan. unfold string_field.
  rewrite <- (field_uint32_agree i len_field Hok H0' H').
  apply (string_prefix_agree off_field len_field i); try assumption. lia.
Qed.

Section ScanAgree.

Variable memmem : list byte -> list byte -> option Z.
Variable query : list byte.

Lemma scan_hit_agree (i : Z) :
  ok i ->
  scan_hit memmem m1 data_ptr item_base_offset item_record_size query i
  = scan_hit memmem m2 data_ptr item_base_offset item_record_size query i.
Proof.
  intros Hok. unfold scan_hit, record_lower_name.
  rewrite (string_field_agree 36 40 i Hok); try lia; [reflexivity|].
  apply Hok.
Qed.

Lemma scan_agree (start_index end_index : Z) :
  (forall i, start_index <= i < end_index -> ok i) ->
  scan_agrees memmem m1 m2 data_ptr item_base_offset item_record_size
              start_index end_index query.
Proof.
  intros Hok rb. cbv zeta. rewrite !scan_as_push.
  rewrite (filter_ext_in
             (scan_hit memmem m1 data_ptr item_base_offset item_record_size query)
             (scan_hit memmem m2 data_ptr item_base_offset item_record_size query)).
  - split; reflexivity.
  - intros i Hi. apply zrange_In in Hi. apply scan_hit_agree, Hok. lia.
Qed.

End ScanAgree.

Lemma lookup_loop_agree (count : Z) (target_path : list byte) (n : nat) (i : Z) :
  (forall k, i <= k < count -> ok k) ->
  lookup_loop m1 data_ptr item_base_offset item_record_size count target_path n i
  = lookup_loop m2 data_ptr item_base_offset item_record_size count target_path n i.
Proof.
  revert i. induction n as [|n IH]; intros i Hok; [reflexivity|].
  cbn [lookup_loop]. destruct (Z.ltb_spec i count) as [Hlt|Hge]; [|reflexivity].
  assert (Hi : ok i) by (apply Hok; lia). fold (rptr i).
  rewrite <- (field_uint32_agree i 32 Hi) by lia.
  destruct (Z.eqb_spec (load_uint32 m1 (ptr_add (rptr i) 32))
                       (Z.of_nat (length target_path))) as [E|E]; cbn [negb].
  - rewrite <- (string_prefix_agree 28 32 i (Z.of_nat (length target_path)) Hi);
      try lia; [|apply Hi].
    destruct (_ =? 0); [reflexivity|]. apply IH. intros k Hk. apply Hok. lia.
  - apply IH. intros k Hk. apply Hok. lia.
Qed.

Lemma compar_agree (key : Z) (compar : mem -> SortContext -> Z -> Z -> Z)
    (ctx : SortContext) (a b : Z) :
  select_compar key = Some compar ->
  ctx_data_ptr ctx = data_ptr -> ctx_item_base_offset ctx = item_base_offset ->
  ctx_item_record_size ctx = item_record_size ->
  ok a -> ok b ->
  compar m1 ctx a b = compar m2 ctx a b.
Proof.
  intros Hsel Hd Hb Hs Ha Hb'. destruct ctx as [d bo st asc]. cbn in Hd, Hb, Hs. subst.
  assert (Hstr : forall off_field len_field,
             0 <= off_field -> off_field + 4 <= 44 -> 0 <= len_field -> len_field + 4 <= 44 ->
             span_in_buffer m1 data_ptr buf_len item_base_offset item_record_size
                            off_field len_field a ->
             span_in_buffer m1 data_ptr buf_len item_base_offset item_record_size
                            off_field len_field b ->
             compare_indices_string off_field len_field m1
               {| ctx_data_ptr := data_ptr; ctx_item_base_offset := item_base_offset;
                  ctx_item_record_size := item_record_size; ctx_ascending := asc |} a b
             = compare_indices_string off_field len_field m2
               {| ctx_data_ptr := data_ptr; ctx_item_base_offset := item_base_offset;
                  ctx_item_record_size := item_record_size; ctx_ascending := asc |} a b).
  { intros off_field len_field H0 H H0' H' Hsa Hsb.
    unfold compare_indices_string. rewrite !get_item_ptr_record.
    cbn [ctx_data_ptr ctx_ascending].
    rewrite <- (field_uint32_agree a len_field Ha H0' H').
    rewrite <- (field_uint32_agree b len_field Hb' H0' H').
    set (lenA := load_uint32 m1 (ptr_add (rptr a) len_field)).
    set (lenB := load_uint32 m1 (ptr_add (rptr b) len_field)).
    rewrite <- (string_prefix_agree off_field len_field a
                  (if lenA <? lenB then lenA else lenB) Ha H0 H Hsa)
      by (fold lenA; destruct (Z.ltb_spec lenA lenB); lia).
    rewrite <- (string_prefix_agree off_field len_field b
                  (if lenA <? lenB then lenA else lenB) Hb' H0 H Hsb)
      by (fold lenB; destruct (Z.ltb_spec lenA lenB); lia).
    reflexivity. }
  unfold select_compar in Hsel.
  destruct (key =? SORT_KEY_NAME).
  { injection Hsel as <-. apply Hstr; try lia; [apply Ha | apply Hb']. }
  destruct (key =? SORT_KEY_PATH).
  { injection Hsel as <-. apply Hstr; try lia; [apply Ha | apply Hb']. }
  destruct (key =? SORT_KEY_SIZE).
  { injection Hsel as <-. unfold compare_indices_size, load_int64.
    rewrite !get_item_ptr_record.
    rewrite (field_uint64_agree a 0 Ha), (field_uint64_agree b 0 Hb') by lia.
    reflexivity. }
  destruct (key =? SORT_KEY_DATE); [|discriminate].
  injection Hsel as <-. unfold compare_indices_date, load_double.
  rewrite !get_item_ptr_record.
  rewrite (field_uint64_agree a 8 Ha), (field_uint64_agree b 8 Hb') by lia.
  reflexivity.
Qed.

End BufferFacts.

(** C6 (as amended): the three operations check no bound.  When the layout
    is sound and every record an operation visits lies in the buffer together
    with its three strings, the operation reads the buffer only: two
    memories that agree on the buffer give the same result. *)
Theorem operations_read_inside_buffer
    (memmem : list byte -> list byte -> option Z)
    (qsort_r : (Z -> Z -> Z) -> list Z -> list Z)
    (m1 m2 : mem) (data_ptr buf_len item_base_offset item_record_size : Z) :
  qsort_r_contract qsort_r ->
  layout_ok data_ptr buf_len item_base_offset item_record_size ->
  agree_on m1 m2 data_ptr buf_len ->
  (forall start_index end_index query,
     (forall i, start_index <= i < end_index ->
        record_ok m1 data_ptr buf_len item_base_offset item_record_size i) ->
     scan_agrees memmem m1 m2 data_ptr item_base_offset item_record_size
                 start_index end_index query)
  /\ (forall count target_path,
        (forall i, 0 <= i < count ->
           record_ok m1 data_ptr buf_len item_base_offset item_record_size i) ->
        perform_path_lookup m1 data_ptr item_base_offset item_record_size count target_path
        = perform_path_lookup m2 data_ptr item_base_offset item_record_size count target_path)
  /\ (forall indices count key ascending,
        (forall i, In i (firstn (Z.to_nat count) indices) ->
           record_ok m1 data_ptr buf_len item_base_offset item_record_size i) ->
        perform_index_sort qsort_r m1 indices count data_ptr item_base_offset
                           item_record_size key ascending
        = perform_index_sort qsort_r m2 indices count data_ptr item_base_offset
                             item_record_size key ascending).
Proof.
  intros Hq Hl Ha. split; [|split].
  - intros start_index end_index query Hok. now apply (scan_agree m1 m2 data_ptr buf_len).
  - intros count target_path Hok. unfold perform_path_lookup.
    now apply (lookup_loop_agree m1 m2 data_ptr buf_len).
  - intros indices count key ascending Hok. unfold perform_index_sort.
    destruct (select_compar key) as [compar|] eqn:Hsel; [|reflexivity].
    f_equal. apply (qsort_r_local _ Hq). intros a b Ia Ib.
    apply (compar_agree m1 m2 data_ptr buf_len item_base_offset item_record_size Hl Ha key);
      auto.
Qed.

Lemma mem_at_app_agree (base : Z) (l l' : list byte) :
  agree_on (Example.mem_at base l) (Example.mem_at base (l ++ l')) base
           (Z.of_nat (length l)).
Proof.
  intros a Ha. unfold Example.mem_at. rewrite length_app, Nat2Z.inj_add.
  destruct (Z.leb_spec base a); [|lia].
  destruct (Z.ltb_spec a (base + Z.of_nat (length l))); [|lia].
  destruct (Z.ltb_spec a (base + (Z.of_nat (length l) + Z.of_nat (length l')))); [|lia].
  cbn [andb]. rewrite app_nth1 by lia. reflexivity.
Qed.

Lemma operations_read_inside_buffer_witness :
  scan_agrees Libc.memmem_bsd Example.memory
              (Example.mem_at Example.data_ptr (Example.buffer ++ [xff]))
              Example.data_ptr 0 44 0 3 Example.eta
  /\ perform_path_lookup Example.memory Example.data_ptr 0 44 3 Example.slash_a
     = perform_path_lookup (Example.mem_at Example.data_ptr (Example.buffer ++ [xff]))
                           Example.data_ptr 0 44 3 Example.slash_a
  /\ perform_index_sort Libc.qsort_r_insertion Example.memory [0; 1; 2] 3
                        Example.data_ptr 0 44 SORT_KEY_PATH true
     = perform_index_sort Libc.qsort_r_insertion
                          (Example.mem_at Example.data_ptr (Example.buffer ++ [xff]))
                          [0; 1; 2] 3 Example.data_ptr 0 44 SORT_KEY_PATH true.
Proof.
  assert (Hok : forall i, 0 <= i < 3 ->
            record_ok Example.memory Example.data_ptr 161 0 44 i).
  { intros i Hi. assert (Hc : i = 0 \/ i = 1 \/ i = 2) by lia.
    destruct Hc as [-> | [-> | ->]]; unfold record_ok, span_in_buffer;
      repeat split; vm_compute; discriminate. }
  destruct (operations_read_inside_buffer Libc.memmem_bsd Libc.qsort_r_insertion
              Example.memory (Example.mem_at Example.data_ptr (Example.buffer ++ [xff]))
              Example.data_ptr 161 0 44) as [Hscan [Hlookup Hsort]].
  - apply qsort_r_insertion_contract.
  - unfold layout_ok, buffer_ok, Example.data_ptr. lia.
  - apply (mem_at_app_agree Example.data_ptr Example.buffer [xff]).
  - split; [|split].
    + apply Hscan. exact Hok.
    + apply Hlookup. exact Hok.
    + apply Hsort. intros i Hi. apply Hok.
      destruct Hi as [<- | [<- | [<- | [ ] ] ] ]; lia.
Defined.

(** C6 as stated fails: no operation checks a bound.  On a buffer of one
    record whose lowercased name is said to start right behind the buffer,
    the scan returns normally, and what it returns follows the byte it read
    there. *)
Lemma operations_check_no_bound :
  layout_ok Example.data_ptr 44 0 44
  /\ agree_on (Example.mem_overrun x61) (Example.mem_overrun x62) Example.data_ptr 44
  /\ ~ record_ok (Example.mem_overrun x61) Example.data_ptr 44 0 44 0
  /\ fst (perform_search_scan Libc.memmem_bsd (Example.mem_overrun x61)
            Example.data_ptr 0 44 0 1 [x61] (fun _ => 0)) = 1
  /\ ~ scan_agrees Libc.memmem_bsd (Example.mem_overrun x61) (Example.mem_overrun x62)
                   Example.data_ptr 0 44 0 1 [x61].
Proof.
  split; [|split; [|split; [|split]]].
  - unfold layout_ok, buffer_ok, Example.data_ptr. lia.
  - intros a Ha. unfold Example.mem_overrun.
    rewrite <- (mem_at_app_agree Example.data_ptr Example.overrun_buffer [x61] a Ha).
    apply (mem_at_app_agree Example.data_ptr Example.overrun_buffer [x62] a Ha).
  - intros (_ & _ & _ & _ & H). vm_compute in H. now apply H.
  - vm_compute. reflexivity.
  - intros H. destruct (H (fun _ => 0)) as [Hcount _]. vm_compute in Hcount.
    discriminate Hcount.
Qed.

(** * Further properties of the scan *)

Lemma occurs_length (needle hay : list byte) :
  occurs needle hay -> (length needle <= length hay)%nat.
Proof.
  intros [pre [suf ->]]. rewrite !length_app. lia.
Qed.

Lemma occurs_trans (a b c : list byte) : occurs a b -> occurs b c -> occurs a c.
Proof.
  intros [p [s ->]] [pre [suf ->]]. exists (pre ++ p), (s ++ suf).
  now rewrite <- !app_assoc.
Qed.

(** X1: a scan over [a, c) returns what the scans over [a, b) and [b, c)
    return, one after the other, and the counts add up; so a range can be
    scanned in pieces and the outputs concatenated. *)
Theorem scan_splits
    (memmem : list byte -> list byte -> option Z) (m : mem)
    (data_ptr item_base_offset item_record_size a b c : Z)
    (query : list byte) (rb rb1 rb2 : Z -> Z) :
  0 <= a <= b -> b <= c -> c <= 2 ^ 31 -> c - a <= CInt.INT32_MAX ->
  let whole := perform_search_scan memmem m data_ptr item_base_offset item_record_size
                 a c query rb in
  let left := perform_search_scan memmem m data_ptr item_base_offset item_record_size
                a b query rb1 in
  let right := perform_search_scan memmem m data_ptr item_base_offset item_record_size
                 b c query rb2 in
  scan_output whole = scan_output left ++ scan_output right
  /\ fst whole = fst left + fst right.
Proof.
  intros Hab Hbc Hc Hsize. cbv zeta.
  destruct (scan_output_hits memmem m data_ptr item_base_offset item_record_size
              a c query rb) as [Hn Ho]; [lia | lia | lia |].
  destruct (scan_output_hits memmem m data_ptr item_base_offset item_record_size
              a b query rb1) as [Hn1 Ho1]; [lia | lia | lia |].
  destruct (scan_output_hits memmem m data_ptr item_base_offset item_record_size
              b c query rb2) as [Hn2 Ho2]; [lia | lia | lia |].
  cbv zeta in *. rewrite Hn, Hn1, Hn2, Ho, Ho1, Ho2.
  replace (Z.to_nat (c - a)) with (Z.to_nat (b - a) + Z.to_nat (c - b))%nat by lia.
  rewrite zrange_app, filter_app, length_app.
  replace (a + Z.of_nat (Z.to_nat (b - a))) with b by lia.
  split; [reflexivity | lia].
Qed.

Lemma scan_splits_witness :
  let whole := perform_search_scan Libc.memmem_bsd Example.memory Example.data_ptr 0 44
                 0 3 [x61] (fun _ => 0) in
  let left := perform_search_scan Libc.memmem_bsd Example.memory Example.data_ptr 0 44
                0 1 [x61] (fun _ => 0) in
  let right := perform_search_scan Libc.memmem_bsd Example.memory Example.data_ptr 0 44
                 1 3 [x61] (fun _ => 0) in
  scan_output whole = scan_output left ++ scan_output right
  /\ fst whole = fst left + fst right.
Proof.
  apply scan_splits; unfold CInt.INT32_MAX; lia.
Defined.

(** X2: a record whose lowercased name is shorter than the query is never
    returned. *)
Theorem scan_skips_short_names
    (memmem : list byte -> list byte -> option Z) (m : mem)
    (data_ptr item_base_offset item_record_size start_index end_index : Z)
    (query : list byte) (results_buffer : Z -> Z) (i : Z) :
  memmem_contract memmem ->
  0 <= start_index -> end_index <= 2 ^ 31 ->
  end_index - start_index <= CInt.INT32_MAX ->
  (length (record_lower_name m data_ptr item_base_offset item_record_size i)
   < length query)%nat ->
  ~ In i (scan_output
            (perform_search_scan memmem m data_ptr item_base_offset item_record_size
               start_index end_index query results_buffer)).
Proof.
  intros Hc H0 Hend Hsize Hshort Hin.
  destruct (scan_output_hits memmem m data_ptr item_base_offset item_record_size
              start_index end_index query results_buffer H0 Hend Hsize) as [_ Ho].
  cbv zeta in Ho. rewrite Ho in Hin. apply filter_In in Hin as [_ Hhit].
  assert (Hq : query <> []) by (intros ->; simpl in Hshort; lia).
  apply (scan_hit_occurs _ _ _ _ _ _ _ Hc Hq), occurs_length in Hhit. lia.
Qed.

Lemma scan_skips_short_names_witness :
  ~ In 0 (scan_output
            (perform_search_scan Libc.memmem_bsd Example.memory Example.data_ptr 0 44
               0 3 Example.alpha (fun _ => 0))).
Proof.
  apply scan_skips_short_names.
  - apply memmem_bsd_contract.
  - lia.
  - lia.
  - unfold CInt.INT32_MAX. lia.
  - vm_compute. lia.
Defined.

(** X3: a longer query narrows the result.  Over a range with
    [0 <= start_index], [end_index <= 2 ^ 31] and at most [INT32_MAX]
    records, and with [memmem] within its contract: when the query [short],
    not empty, occurs in the query [long], every index the scan returns for
    [long] it also returns for [short]. *)
Theorem scan_narrows
    (memmem : list byte -> list byte -> option Z) (m : mem)
    (data_ptr item_base_offset item_record_size start_index end_index : Z)
    (short long : list byte) (rb1 rb2 : Z -> Z) :
  memmem_contract memmem ->
  0 <= start_index -> end_index <= 2 ^ 31 ->
  end_index - start_index <= CInt.INT32_MAX ->
  short <> [] -> occurs short long ->
  incl (scan_output
          (perform_search_scan memmem m data_ptr item_base_offset item_record_size
             start_index end_index long rb1))
       (scan_output
          (perform_search_scan memmem m data_ptr item_base_offset item_record_size
             start_index end_index short rb2)).
Proof.
  intros Hc H0 Hend Hsize Hs Hocc i.
  destruct (scan_output_hits memmem m data_ptr item_base_offset item_record_size
              start_index end_index long rb1 H0 Hend Hsize) as [_ Ho1].
  destruct (scan_output_hits memmem m data_ptr item_base_offset item_record_size
              start_index end_index short rb2 H0 Hend Hsize) as [_ Ho2].
  cbv zeta in Ho1, Ho2. rewrite Ho1, Ho2, !filter_In.
  assert (Hl : long <> []).
  { intros ->. apply occurs_nil_r in Hocc. contradiction. }
  rewrite (scan_hit_occurs _ _ _ _ _ _ _ Hc Hl), (scan_hit_occurs _ _ _ _ _ _ _ Hc Hs).
  intros [Hr Hi]. split; [exact Hr|]. now apply (occurs_trans short long).
Qed.

Lemma scan_narrows_witness :
  incl (scan_output
          (perform_search_scan Libc.memmem_bsd Example.memory Example.data_ptr 0 44
             0 3 Example.eta (fun _ => 0)))
       (scan_output
          (perform_search_scan Libc.memmem_bsd Example.memory Example.data_ptr 0 44
             0 3 [x74; x61] (fun _ => 0))).
Proof.
  apply scan_narrows.
  - apply memmem_bsd_contract.
  - lia.
  - lia.
  - unfold CInt.INT32_MAX. lia.
  - discriminate.
  - now exists [x65], [].
Defined.

(** * Further properties of the comparators *)

Lemma bytes_compare_refl (a : list byte) : bytes_compare a a = Eq.
Proof.
  induction a as [|x a IH]; [reflexivity|].
  cbn [bytes_compare]. now rewrite Z.compare_refl.
Qed.

Lemma bytes_compare_eq_iff (a b : list byte) : bytes_compare a b = Eq <-> a = b.
Proof.
  split; [|intros ->; apply bytes_compare_refl].
  revert b. induction a as [|x a IH]; intros [|y b]; cbn [bytes_compare];
    try congruence.
  destruct (Z.compare_spec (byte_val x) (byte_val y)) as [E|E|E]; try discriminate.
  intros H. apply byte_val_inj in E. f_equal; [exact E | now apply IH].
Qed.

Lemma bytes_compare_prefix (a suf : list byte) :
  suf <> [] -> bytes_compare a (a ++ suf) = Lt.
Proof.
  intros Hs. induction a as [|x a IH].
  - destruct suf; [contradiction | reflexivity].
  - cbn [app bytes_compare]. now rewrite Z.compare_refl.
Qed.

Lemma fp_lt_irrefl (x : fpval) : fp_lt x x = false.
Proof.
  destruct x; simpl; try reflexivity. apply Z.ltb_irrefl.
Qed.

Lemma fp_compare_eq_iff (x y : fpval) :
  is_nan x = false -> is_nan y = false ->
  ((if fp_lt x y then Lt else if fp_lt y x then Gt else Eq) = Eq <-> x = y).
Proof.
  destruct x, y; simpl; try congruence; intros _ _; try (split; congruence).
  destruct (Z.ltb_spec scaled scaled0), (Z.ltb_spec scaled0 scaled);
    split; try congruence; try lia.
  - intros [= E]. lia.
  - intros [= E]. lia.
  - intros _. f_equal. lia.
Qed.

Lemma compare_eq_zero (c : Z) : (c ?= 0) = Eq <-> c = 0.
Proof.
  apply Z.compare_eq_iff.
Qed.

Lemma directed_eq (ascending : bool) (c : comparison) :
  (if ascending then c else CompOpp c) = Eq <-> c = Eq.
Proof.
  destruct ascending, c; simpl; split; congruence.
Qed.

Lemma key_compare_refl (m : mem) (data_ptr item_base_offset item_record_size : Z)
    (key i : Z) :
  key_compare m data_ptr item_base_offset item_record_size key i i = Eq.
Proof.
  unfold key_compare.
  destruct (key =? SORT_KEY_NAME); [apply bytes_compare_refl|].
  destruct (key =? SORT_KEY_PATH); [apply bytes_compare_refl|].
  destruct (key =? SORT_KEY_SIZE); [apply Z.compare_refl|].
  cbv zeta. now rewrite fp_lt_irrefl.
Qed.

(** X4: every comparator is antisymmetric in sign and answers 0 on one and
    the same index, for every buffer content (NaN modification times
    included), and the descending comparator has the sign opposite to the
    ascending one. *)
Theorem compar_antisymmetric (m : mem)
    (data_ptr item_base_offset item_record_size key : Z)
    (compar : mem -> SortContext -> Z -> Z -> Z) (ascending : bool) (a b : Z) :
  select_compar key = Some compar ->
  let ctx asc := {| ctx_data_ptr := data_ptr;
                    ctx_item_base_offset := item_base_offset;
                    ctx_item_record_size := item_record_size;
                    ctx_ascending := asc |} in
  Z.sgn (compar m (ctx ascending) b a) = - Z.sgn (compar m (ctx ascending) a b)
  /\ compar m (ctx ascending) a a = 0
  /\ Z.sgn (compar m (ctx false) a b) = - Z.sgn (compar m (ctx true) a b).
Proof.
  intros Hsel. cbv zeta.
  pose proof (compar_sign m data_ptr item_base_offset item_record_size) as Hs.
  assert (Hsgn : forall x y c, (x ?= 0) = c -> (y ?= 0) = CompOpp c ->
                               Z.sgn y = - Z.sgn x).
  { intros x y c Hx Hy.
    destruct (Z.compare_spec x 0), (Z.compare_spec y 0); subst c; simpl in Hy;
      try discriminate; lia. }
  split; [|split].
  - apply (Hsgn _ _ _ (Hs ascending key compar a b Hsel)).
    rewrite (Hs ascending key compar b a Hsel), (key_compare_antisym _ _ _ _ key a b).
    now destruct ascending.
  - apply compare_eq_zero. rewrite (Hs ascending key compar a a Hsel), key_compare_refl.
    now destruct ascending.
  - apply (Hsgn _ _ _ (Hs true key compar a b Hsel)).
    now rewrite (Hs false key compar a b Hsel).
Qed.

Lemma compar_antisymmetric_witness :
  let ctx asc := {| ctx_data_ptr := Example.data_ptr; ctx_item_base_offset := 0;
                    ctx_item_record_size := 44; ctx_ascending := asc |} in
  Z.sgn (compare_indices_name Example.memory (ctx true) 1 0)
  = - Z.sgn (compare_indices_name Example.memory (ctx true) 0 1)
  /\ compare_indices_name Example.memory (ctx true) 0 0 = 0
  /\ Z.sgn (compare_indices_name Example.memory (ctx false) 0 1)
     = - Z.sgn (compare_indices_name Example.memory (ctx true) 0 1).
Proof.
  apply (compar_antisymmetric Example.memory Example.data_ptr 0 44
           SORT_KEY_NAME compare_indices_name true 0 1).
  reflexivity.
Defined.

(** X5: a comparator answers 0 exactly when the two keys are equal: the same
    name bytes, the same path bytes, the same size, or, for records without
    NaN, the same modification time. *)
Theorem compar_zero_iff_equal_keys (m : mem)
    (data_ptr item_base_offset item_record_size : Z) (ascending : bool) (a b : Z) :
  let ctx := {| ctx_data_ptr := data_ptr;
                ctx_item_base_offset := item_base_offset;
                ctx_item_record_size := item_record_size;
                ctx_ascending := ascending |} in
  (compare_indices_name m ctx a b = 0 <->
   record_name m data_ptr item_base_offset item_record_size a
   = record_name m data_ptr item_base_offset item_record_size b)
  /\ (compare_indices_path m ctx a b = 0 <->
      record_path m data_ptr item_base_offset item_record_size a
      = record_path m data_ptr item_base_offset item_record_size b)
  /\ (compare_indices_size m ctx a b = 0 <->
      record_size m data_ptr item_base_offset item_record_size a
      = record_size m data_ptr item_base_offset item_record_size b)
  /\ (is_nan (record_modified m data_ptr item_base_offset item_record_size a) = false ->
      is_nan (record_modified m data_ptr item_base_offset item_record_size b) = false ->
      (compare_indices_date m ctx a b = 0 <->
       record_modified m data_ptr item_base_offset item_record_size a
       = record_modified m data_ptr item_base_offset item_record_size b)).
Proof.
  cbv zeta.
  assert (Hstr : forall off_field len_field,
            compare_indices_string off_field len_field m
              {| ctx_data_ptr := data_ptr; ctx_item_base_offset := item_base_offset;
                 ctx_item_record_size := item_record_size; ctx_ascending := ascending |}
              a b = 0
            <-> string_field m data_ptr item_base_offset item_record_size
                             off_field len_field a
                = string_field m data_ptr item_base_offset item_record_size
                               off_field len_field b).
  { intros off_field len_field.
    etransitivity; [symmetry; apply compare_eq_zero|].
    rewrite compare_indices_string_sign, directed_eq. apply bytes_compare_eq_iff. }
  split; [apply Hstr|]. split; [apply Hstr|]. split.
  - etransitivity; [symmetry; apply compare_eq_zero|].
    rewrite compare_indices_size_sign, directed_eq. apply Z.compare_eq_iff.
  - intros Ha Hb.
    pose proof (compare_indices_date_sign m data_ptr item_base_offset item_record_size
                  ascending a b) as Hs. cbv zeta in Hs.
    etransitivity; [symmetry; apply compare_eq_zero|].
    rewrite Hs, directed_eq. now apply fp_compare_eq_iff.
Qed.

Lemma compar_zero_iff_equal_keys_witness :
  compare_indices_date Example.memory
    {| ctx_data_ptr := Example.data_ptr; ctx_item_base_offset := 0;
       ctx_item_record_size := 44; ctx_ascending := true |} 1 1 = 0.
Proof.
  apply (proj2 (proj2 (proj2 (compar_zero_iff_equal_keys Example.memory
           Example.data_ptr 0 44 true 1 1)))); reflexivity.
Defined.

(** X6: the date comparator answers 0 as soon as one of the two modification
    times is a NaN, in both directions: a NaN record compares equal to every
    record. *)
Theorem compare_indices_date_nan (m : mem)
    (data_ptr item_base_offset item_record_size : Z) (ascending : bool) (a b : Z) :
  is_nan (record_modified m data_ptr item_base_offset item_record_size a) = true
  \/ is_nan (record_modified m data_ptr item_base_offset item_record_size b) = true ->
  compare_indices_date m {| ctx_data_ptr := data_ptr;
                            ctx_item_base_offset := item_base_offset;
                            ctx_item_record_size := item_record_size;
                            ctx_ascending := ascending |} a b = 0.
Proof.
  unfold compare_indices_date, record_modified. rewrite !get_item_ptr_record.
  set (x := load_double m _). set (y := load_double m _).
  intros [H|H]; destruct x, y; try discriminate H; reflexivity.
Qed.

Lemma compare_indices_date_nan_witness :
  compare_indices_date (Example.mem_fill xff)
    {| ctx_data_ptr := Example.data_ptr; ctx_item_base_offset := 0;
       ctx_item_record_size := 44; ctx_ascending := true |} 0 1 = 0.
Proof.
  apply compare_indices_date_nan. left. reflexivity.
Defined.

(** X7: a record whose name is a proper prefix of another record's name
    sorts before it: the name comparator is negative in an ascending sort
    and positive in a descending one. *)
Theorem compare_indices_name_prefix (m : mem)
    (data_ptr item_base_offset item_record_size : Z) (a b : Z) (suffix : list byte) :
  suffix <> [] ->
  record_name m data_ptr item_base_offset item_record_size b
  = record_name m data_ptr item_base_offset item_record_size a ++ suffix ->
  let ctx asc := {| ctx_data_ptr := data_ptr;
                    ctx_item_base_offset := item_base_offset;
                    ctx_item_record_size := item_record_size;
                    ctx_ascending := asc |} in
  compare_indices_name m (ctx true) a b < 0
  /\ compare_indices_name m (ctx false) a b > 0.
Proof.
  intros Hs Hb. cbv zeta.
  pose proof (compare_indices_string_sign m data_ptr item_base_offset item_record_size
                true 20 24 a b) as Ht.
  pose proof (compare_indices_string_sign m data_ptr item_base_offset item_record_size
                false 20 24 a b) as Hf.
  fold (record_name m data_ptr item_base_offset item_record_size a) in Ht, Hf.
  fold (record_name m data_ptr item_base_offset item_record_size b) in Ht, Hf.
  rewrite Hb, (bytes_compare_prefix _ suffix Hs) in Ht, Hf.
  cbv beta iota in Ht, Hf. change (CompOpp Lt) with Gt in Hf.
  unfold compare_indices_name. split.
  - exact Ht.
  - exact Hf.
Qed.

Lemma compare_indices_name_prefix_witness :
  let ctx asc := {| ctx_data_ptr := Example.data_ptr; ctx_item_base_offset := 0;
                    ctx_item_record_size := 44; ctx_ascending := asc |} in
  compare_indices_name (Example.mem_at Example.data_ptr Example.prefix_buffer)
                       (ctx true) 0 1 < 0
  /\ compare_indices_name (Example.mem_at Example.data_ptr Example.prefix_buffer)
                          (ctx false) 0 1 > 0.
Proof.
  apply (compare_indices_name_prefix
           (Example.mem_at Example.data_ptr Example.prefix_buffer)
           Example.data_ptr 0 44 0 1 [x61]).
  - discriminate.
  - reflexivity.
Defined.

(** * Further properties of the sort *)

Lemma StronglySorted_snoc {A : Type} (R : A -> A -> Prop) (l : list A) (x : A) :
  StronglySorted R l -> Forall (fun y => R y x) l -> StronglySorted R (l ++ [x]).
Proof.
  induction 1 as [|y l Hs IH Hy]; intros Hx; simpl.
  - repeat constructor.
  - inversion Hx as [|? ? Hyx Hx']; subst. constructor; [now apply IH|].
    apply Forall_app. split; [exact Hy | now constructor].
Qed.

Lemma StronglySorted_rev {A : Type} (R : A -> A -> Prop) (l : list A) :
  StronglySorted R l -> StronglySorted (fun a b => R b a) (rev l).
Proof.
  induction 1 as [|x l Hs IH Hx]; simpl; [constructor|].
  apply StronglySorted_snoc; [exact IH|].
  apply Forall_rev. exact Hx.
Qed.

Lemma keys_distinct_ordered (m : mem) (data_ptr item_base_offset item_record_size key : Z)
    (ascending : bool) (indices : list Z) :
  keys_distinct m data_ptr item_base_offset item_record_size key indices ->
  forall a b, In a indices -> In b indices ->
    key_ordered m data_ptr item_base_offset item_record_size key ascending a b ->
    key_ordered m data_ptr item_base_offset item_record_size key ascending b a ->
    a = b.
Proof.
  intros Hd a b Ia Ib. unfold key_ordered. destruct ascending; intros H1 H2.
  - now apply Hd.
  - now apply Hd.
Qed.

Lemma no_nan_dates_perm (m : mem) (data_ptr item_base_offset item_record_size : Z)
    (l l' : list Z) :
  Permutation l l' ->
  no_nan_dates m data_ptr item_base_offset item_record_size l ->
  no_nan_dates m data_ptr item_base_offset item_record_size l'.
Proof.
  intros Hp H i Hi. apply H. now apply (Permutation_in _ (Permutation_sym Hp)).
Qed.

Lemma sort_whole_perm (qsort_r : (Z -> Z -> Z) -> list Z -> list Z) (m : mem)
    (data_ptr item_base_offset item_record_size key : Z) (ascending : bool)
    (indices : list Z) :
  qsort_r_contract qsort_r ->
  Permutation indices
    (perform_index_sort qsort_r m indices (Z.of_nat (length indices)) data_ptr
                        item_base_offset item_record_size key ascending).
Proof.
  intros Hq. unfold perform_index_sort.
  destruct (select_compar key) as [compar|]; [|reflexivity].
  rewrite Nat2Z.id, firstn_all, skipn_all, app_nil_r. apply (qsort_r_permutes _ Hq).
Qed.

(** X8: when no two different entries have equal keys, the descending sort
    of an array is the ascending sort of it, reversed. *)
Theorem sort_descending_is_reverse (qsort_r : (Z -> Z -> Z) -> list Z -> list Z)
    (m : mem) (data_ptr item_base_offset item_record_size key : Z) (indices : list Z) :
  qsort_r_contract qsort_r ->
  valid_sort_key key ->
  (key = SORT_KEY_DATE ->
   no_nan_dates m data_ptr item_base_offset item_record_size indices) ->
  keys_distinct m data_ptr item_base_offset item_record_size key indices ->
  perform_index_sort qsort_r m indices (Z.of_nat (length indices)) data_ptr
                     item_base_offset item_record_size key false
  = rev (perform_index_sort qsort_r m indices (Z.of_nat (length indices)) data_ptr
                            item_base_offset item_record_size key true).
Proof.
  intros Hq Hv Hnan Hd.
  apply (sort_unique qsort_r Hq); try assumption.
  - now apply keys_distinct_ordered.
  - rewrite <- Permutation_rev. now apply sort_whole_perm.
  - apply (StronglySorted_rev
             (key_ordered m data_ptr item_base_offset item_record_size key true)).
    now apply sort_sorted.
Qed.

Lemma sort_descending_is_reverse_witness :
  perform_index_sort Libc.qsort_r_insertion Example.memory [0; 1; 2] 3
                     Example.data_ptr 0 44 SORT_KEY_NAME false
  = rev (perform_index_sort Libc.qsort_r_insertion Example.memory [0; 1; 2] 3
                            Example.data_ptr 0 44 SORT_KEY_NAME true).
Proof.
  apply (sort_descending_is_reverse Libc.qsort_r_insertion Example.memory
           Example.data_ptr 0 44 SORT_KEY_NAME [0; 1; 2]).
  - apply qsort_r_insertion_contract.
  - left. reflexivity.
  - discriminate.
  - intros a b [<- | [<- | [<- | [ ] ] ] ] [<- | [<- | [<- | [ ] ] ] ] Hab Hba;
      try reflexivity; vm_compute in Hab, Hba; congruence.
Defined.

(** X9: when no two different entries have equal keys, the sorted array does
    not depend on the order the entries had before: two arrays with the same
    entries sort to the same array. *)
Theorem sort_forgets_order (qsort_r : (Z -> Z -> Z) -> list Z -> list Z)
    (m : mem) (data_ptr item_base_offset item_record_size key : Z) (ascending : bool)
    (indices indices' : list Z) :
  qsort_r_contract qsort_r ->
  valid_sort_key key ->
  (key = SORT_KEY_DATE ->
   no_nan_dates m data_ptr item_base_offset item_record_size indices) ->
  keys_distinct m data_ptr item_base_offset item_record_size key indices ->
  Permutation indices indices' ->
  perform_index_sort qsort_r m indices (Z.of_nat (length indices)) data_ptr
                     item_base_offset item_record_size key ascending
  = perform_index_sort qsort_r m indices' (Z.of_nat (length indices')) data_ptr
                       item_base_offset item_record_size key ascending.
Proof.
  intros Hq Hv Hnan Hd Hp.
  apply (sort_unique qsort_r Hq); try assumption.
  - now apply keys_distinct_ordered.
  - rewrite Hp. now apply sort_whole_perm.
  - apply sort_sorted; try assumption.
    intros E. apply (no_nan_dates_perm _ _ _ _ indices); [exact Hp | now apply Hnan].
Qed.

Lemma sort_forgets_order_witness :
  perform_index_sort Libc.qsort_r_insertion Example.memory [0; 1; 2] 3
                     Example.data_ptr 0 44 SORT_KEY_PATH true
  = perform_index_sort Libc.qsort_r_insertion Example.memory [2; 0; 1] 3
                       Example.data_ptr 0 44 SORT_KEY_PATH true.
Proof.
  apply (sort_forgets_order Libc.qsort_r_insertion Example.memory
           Example.data_ptr 0 44 SORT_KEY_PATH true [0; 1; 2] [2; 0; 1]).
  - apply qsort_r_insertion_contract.
  - right. left. reflexivity.
  - discriminate.
  - intros a b [<- | [<- | [<- | [ ] ] ] ] [<- | [<- | [<- | [ ] ] ] ] Hab Hba;
      try reflexivity; vm_compute in Hab, Hba; congruence.
  - apply Permutation_sym, (Permutation_cons_append [0; 1] 2).
Defined.

(** X10: the sort keeps the length of the array, leaves every entry from
    position [count] on where it was, and permutes the first [count]
    entries among themselves. *)
Theorem sort_touches_prefix_only (qsort_r : (Z -> Z -> Z) -> list Z -> list Z)
    (m : mem) (indices : list Z)
    (count data_ptr item_base_offset item_record_size key : Z) (ascending : bool) :
  qsort_r_contract qsort_r ->
  let sorted := perform_index_sort qsort_r m indices count data_ptr item_base_offset
                                   item_record_size key ascending in
  length sorted = length indices
  /\ skipn (Z.to_nat count) sorted = skipn (Z.to_nat count) indices
  /\ Permutation (firstn (Z.to_nat count) indices) (firstn (Z.to_nat count) sorted).
Proof.
  intros Hq. cbv zeta. unfold perform_index_sort.
  destruct (select_compar key) as [compar|]; [|repeat split; reflexivity].
  set (n := Z.to_nat count). clearbody n.
  set (ctx := {| ctx_data_ptr := data_ptr; ctx_item_base_offset := item_base_offset;
                 ctx_item_record_size := item_record_size; ctx_ascending := ascending |}).
  clearbody ctx.
  pose proof (qsort_r_permutes _ Hq (compar m ctx) (firstn n indices)) as Hp.
  pose proof (Permutation_length Hp) as Hl.
  rewrite length_firstn in Hl.
  set (front := qsort_r (compar m ctx) (firstn n indices)) in *. clearbody front.
  destruct (Nat.le_gt_cases n (length indices)) as [Hle|Hgt].
  - rewrite Nat.min_l in Hl by exact Hle. split; [|split].
    + rewrite length_app, <- Hl, length_skipn. clear - Hle. lia.
    + rewrite skipn_app, <- Hl, Nat.sub_diag. cbn [skipn].
      rewrite (skipn_all2 front) by (clear - Hl; lia). reflexivity.
    + rewrite firstn_app, <- Hl, Nat.sub_diag. cbn [firstn].
      rewrite app_nil_r, (firstn_all2 front) by (clear - Hl; lia). exact Hp.
  - rewrite Nat.min_r in Hl by (clear - Hgt; lia).
    rewrite (skipn_all2 indices) by (clear - Hgt; lia). rewrite app_nil_r.
    split; [|split].
    + now rewrite <- Hl.
    + apply skipn_all2. clear - Hl Hgt. lia.
    + rewrite (firstn_all2 front) by (clear - Hl Hgt; lia). exact Hp.
Qed.

Lemma sort_touches_prefix_only_witness :
  let sorted := perform_index_sort Libc.qsort_r_insertion Example.memory [0; 1; 2] 2
                                   Example.data_ptr 0 44 SORT_KEY_SIZE true in
  length sorted = length [0; 1; 2]
  /\ skipn (Z.to_nat 2) sorted = skipn (Z.to_nat 2) [0; 1; 2]
  /\ Permutation (firstn (Z.to_nat 2) [0; 1; 2]) (firstn (Z.to_nat 2) sorted).
Proof.
  apply sort_touches_prefix_only, qsort_r_insertion_contract.
Defined.

(** X11: with a [count] of 0 or 1 there is nothing to order and the array
    comes back as it was, for every key. *)
Theorem sort_of_at_most_one (qsort_r : (Z -> Z -> Z) -> list Z -> list Z)
    (m : mem) (indices : list Z)
    (count data_ptr item_base_offset item_record_size key : Z) (ascending : bool) :
  qsort_r_contract qsort_r ->
  0 <= count <= 1 ->
  perform_index_sort qsort_r m indices count data_ptr item_base_offset
                     item_record_size key ascending
  = indices.
Proof.
  intros Hq Hc. unfold perform_index_sort.
  destruct (select_compar key) as [compar|]; [|reflexivity].
  set (ctx := {| ctx_data_ptr := data_ptr; ctx_item_base_offset := item_base_offset;
                 ctx_item_record_size := item_record_size; ctx_ascending := ascending |}).
  pose proof (qsort_r_permutes _ Hq (compar m ctx) (firstn (Z.to_nat count) indices))
    as Hp.
  rewrite <- (firstn_skipn (Z.to_nat count) indices) at 3. f_equal.
  assert (Hlen : (length (firstn (Z.to_nat count) indices) <= 1)%nat)
    by (rewrite length_firstn; lia).
  destruct (firstn (Z.to_nat count) indices) as [|x [|y l]].
  - now apply Permutation_nil in Hp.
  - now apply Permutation_length_1_inv in Hp.
  - simpl in Hlen. lia.
Qed.

Lemma sort_of_at_most_one_witness :
  perform_index_sort Libc.qsort_r_insertion Example.memory [2; 0; 1] 1
                     Example.data_ptr 0 44 SORT_KEY_NAME true
  = [2; 0; 1].
Proof.
  apply sort_of_at_most_one.
  - apply qsort_r_insertion_contract.
  - lia.
Defined.

(** * Further properties of the lookup *)

(** What the loop returns from [i] on: -1 after records that all differ
    from the target, or the first matching index, converted. *)
Lemma lookup_loop_result (m : mem)
    (data_ptr item_base_offset item_record_size count : Z) (target_path : list byte)
    (n : nat) (i : Z) :
  (lookup_loop m data_ptr item_base_offset item_record_size count target_path n i = -1
   /\ forall k, i <= k < i + Z.of_nat n -> k < count ->
        record_path m data_ptr item_base_offset item_record_size k <> target_path)
  \/ exists j, i <= j < i + Z.of_nat n /\ j < count
       /\ record_path m data_ptr item_base_offset item_record_size j = target_path
       /\ (forall k, i <= k < j ->
             record_path m data_ptr item_base_offset item_record_size k <> target_path)
       /\ lookup_loop m data_ptr item_base_offset item_record_size count target_path n i
          = CInt.int32_t j.
Proof.
  revert i. induction n as [|n IH]; intros i.
  - left. split; [reflexivity | intros k Hk; lia].
  - cbn [lookup_loop]. destruct (Z.ltb_spec i count) as [Hlt|Hge].
    2:{ left. split; [reflexivity | intros k Hk Hc; lia]. }
    pose proof (path_test_iff m data_ptr item_base_offset item_record_size target_path i)
      as Ht. cbv zeta in Ht.
    assert (Hskip :
      record_path m data_ptr item_base_offset item_record_size i <> target_path ->
      (lookup_loop m data_ptr item_base_offset item_record_size count target_path n (i + 1)
       = -1
       /\ forall k, i <= k < i + Z.of_nat (S n) -> k < count ->
            record_path m data_ptr item_base_offset item_record_size k <> target_path)
      \/ exists j, i <= j < i + Z.of_nat (S n) /\ j < count
           /\ record_path m data_ptr item_base_offset item_record_size j = target_path
           /\ (forall k, i <= k < j ->
                 record_path m data_ptr item_base_offset item_record_size k
                 <> target_path)
           /\ lookup_loop m data_ptr item_base_offset item_record_size count target_path
                n (i + 1) = CInt.int32_t j).
    { intros Hi. destruct (IH (i + 1)) as [[Hr Hno] | [j (Hj & Hc & Hm & Hfirst & Hr)]].
      - left. split; [exact Hr|]. intros k Hk Hc.
        destruct (Z.eq_dec k i) as [->|Hne]; [exact Hi | apply Hno; lia].
      - right. exists j. repeat split; try assumption; try lia.
        intros k Hk. destruct (Z.eq_dec k i) as [->|Hne]; [exact Hi | apply Hfirst; lia]. }
    destruct (Z.eqb_spec (load_uint32 m (ptr_add (ptr_add (ptr_add data_ptr item_base_offset)
                (CInt.size_t (i * item_record_size))) 32)) (Z.of_nat (length target_path)))
      as [E|E]; cbn [negb].
    + destruct (Z.eqb_spec (memcmp (load_bytes m (ptr_add data_ptr (load_uint32 m (ptr_add
                (ptr_add (ptr_add data_ptr item_base_offset)
                   (CInt.size_t (i * item_record_size))) 28)))
                (Z.of_nat (length target_path))) target_path) 0) as [E'|E'].
      * right. exists i. split; [lia|]. split; [lia|].
        split; [apply Ht; now split|]. split; [intros k Hk; lia | reflexivity].
      * apply Hskip. intros Hi. apply Ht in Hi. tauto.
    + apply Hskip. intros Hi. apply Ht in Hi. tauto.
Qed.

(** X12: for at most 2^31 records the lookup returns -1 only when no record
    has the target path, and any other result is an index in [0, count)
    whose path field is the target and before which no record has it. *)
Theorem lookup_result_is_sound (m : mem)
    (data_ptr item_base_offset item_record_size count : Z) (target_path : list byte) :
  count <= 2 ^ 31 ->
  let r := perform_path_lookup m data_ptr item_base_offset item_record_size count
             target_path in
  (r = -1 /\ forall k, 0 <= k < count ->
       record_path m data_ptr item_base_offset item_record_size k <> target_path)
  \/ (0 <= r < count
      /\ record_path m data_ptr item_base_offset item_record_size r = target_path
      /\ forall k, 0 <= k < r ->
           record_path m data_ptr item_base_offset item_record_size k <> target_path).
Proof.
  intros Hcount. cbv zeta. unfold perform_path_lookup.
  destruct (lookup_loop_result m data_ptr item_base_offset item_record_size count
              target_path (Z.to_nat count) 0) as [[Hr Hno] | [j (Hj & Hc & Hm & Hf & Hr)]].
  - left. split; [exact Hr|]. intros k Hk. apply Hno; lia.
  - right. rewrite Hr, int32_t_small by lia. repeat split; try assumption; lia.
Qed.

Lemma lookup_result_is_sound_witness :
  let r := perform_path_lookup Example.memory Example.data_ptr 0 44 3 Example.slash_g in
  (r = -1 /\ forall k, 0 <= k < 3 ->
       record_path Example.memory Example.data_ptr 0 44 k <> Example.slash_g)
  \/ (0 <= r < 3
      /\ record_path Example.memory Example.data_ptr 0 44 r = Example.slash_g
      /\ forall k, 0 <= k < r ->
           record_path Example.memory Example.data_ptr 0 44 k <> Example.slash_g).
Proof.
  apply lookup_result_is_sound. lia.
Defined.

(** X13: records added behind do not change a hit: if the lookup over
    [count] records returns something other than -1, the lookup over any
    larger number of records returns the same. *)
Theorem lookup_hit_is_stable (m : mem)
    (data_ptr item_base_offset item_record_size count count' : Z)
    (target_path : list byte) :
  count <= count' ->
  perform_path_lookup m data_ptr item_base_offset item_record_size count target_path
  <> -1 ->
  perform_path_lookup m data_ptr item_base_offset item_record_size count' target_path
  = perform_path_lookup m data_ptr item_base_offset item_record_size count target_path.
Proof.
  intros Hle Hhit. unfold perform_path_lookup in *.
  destruct (lookup_loop_result m data_ptr item_base_offset item_record_size count
              target_path (Z.to_nat count) 0) as [[Hr _] | [j (Hj & Hc & Hm & Hf & Hr)]];
    [contradiction|].
  rewrite Hr.
  apply (lookup_first_match m data_ptr item_base_offset item_record_size count'
           target_path j); [lia | exact Hm |].
  intros k Hk. apply Hf. lia.
Qed.

Lemma lookup_hit_is_stable_witness :
  perform_path_lookup Example.memory Example.data_ptr 0 44 3 Example.slash_b
  = perform_path_lookup Example.memory Example.data_ptr 0 44 1 Example.slash_b.
Proof.
  apply lookup_hit_is_stable.
  - lia.
  - vm_compute. discriminate.
Defined.

(** * What the results depend on *)

Lemma scan_by_names (memmem : list byte -> list byte -> option Z)
    (m1 : mem) (data_ptr1 base1 stride1 : Z) (m2 : mem) (data_ptr2 base2 stride2 : Z)
    (start_index end_index : Z) (query : list byte) (rb : Z -> Z) :
  (forall i, start_index <= i < end_index ->
     record_lower_name m1 data_ptr1 base1 stride1 i
     = record_lower_name m2 data_ptr2 base2 stride2 i) ->
  perform_search_scan memmem m1 data_ptr1 base1 stride1 start_index end_index query rb
  = perform_search_scan memmem m2 data_ptr2 base2 stride2 start_index end_index query rb.
Proof.
  intros H. rewrite !scan_as_push. f_equal. apply filter_ext_in.
  intros i Hi. apply zrange_In in Hi. unfold scan_hit. rewrite H by lia. reflexivity.
Qed.

Lemma lookup_by_paths
    (m1 : mem) (data_ptr1 base1 stride1 : Z) (m2 : mem) (data_ptr2 base2 stride2 : Z)
    (count : Z) (target_path : list byte) :
  (forall i, 0 <= i < count ->
     record_path m1 data_ptr1 base1 stride1 i = record_path m2 data_ptr2 base2 stride2 i) ->
  perform_path_lookup m1 data_ptr1 base1 stride1 count target_path
  = perform_path_lookup m2 data_ptr2 base2 stride2 count target_path.
Proof.
  intros H. unfold perform_path_lookup at 1.
  destruct (lookup_loop_result m1 data_ptr1 base1 stride1 count target_path
              (Z.to_nat count) 0) as [[Hr Hno] | [j (Hj & Hc & Hm & Hf & Hr)]];
    rewrite Hr; symmetry.
  - apply lookup_no_match. intros k Hk. rewrite <- H by exact Hk. apply Hno; lia.
  - apply lookup_first_match; [lia | now rewrite <- H by lia |].
    intros k Hk. rewrite <- H by lia. now apply Hf.
Qed.

(** X14: the scan is determined by the lowercased names of the records of
    its range, and the lookup by the path fields of the first [count]
    records: two buffers in which these read the same, whatever their
    layout, give the same results. *)
Theorem results_follow_fields (memmem : list byte -> list byte -> option Z)
    (m1 : mem) (data_ptr1 base1 stride1 : Z) (m2 : mem) (data_ptr2 base2 stride2 : Z) :
  (forall start_index end_index query rb,
     (forall i, start_index <= i < end_index ->
        record_lower_name m1 data_ptr1 base1 stride1 i
        = record_lower_name m2 data_ptr2 base2 stride2 i) ->
     perform_search_scan memmem m1 data_ptr1 base1 stride1 start_index end_index query rb
     = perform_search_scan memmem m2 data_ptr2 base2 stride2 start_index end_index
                           query rb)
  /\ (forall count target_path,
        (forall i, 0 <= i < count ->
           record_path m1 data_ptr1 base1 stride1 i
           = record_path m2 data_ptr2 base2 stride2 i) ->
        perform_path_lookup m1 data_ptr1 base1 stride1 count target_path
        = perform_path_lookup m2 data_ptr2 base2 stride2 count target_path).
Proof.
  split.
  - intros start_index end_index query rb. apply scan_by_names.
  - intros count target_path. apply lookup_by_paths.
Qed.

Lemma results_follow_fields_witness :
  perform_path_lookup Example.memory Example.data_ptr 88 44 1 Example.slash_g
  = perform_path_lookup (Example.mem_at Example.data_ptr Example.prefix_buffer)
                        Example.data_ptr 0 44 1 Example.slash_g.
Proof.
  apply (proj2 (results_follow_fields Libc.memmem_bsd
                  Example.memory Example.data_ptr 88 44
                  (Example.mem_at Example.data_ptr Example.prefix_buffer)
                  Example.data_ptr 0 44)).
  intros i Hi. replace i with 0 by lia. reflexivity.
Defined.

(** * The buffer can be mapped anywhere *)

Section Relocation.

Variables (m1 m2 : mem).
Variables (p1 p2 buf_len item_base_offset item_record_size : Z).

Hypothesis layout1 : layout_ok p1 buf_len item_base_offset item_record_size.
Hypothesis layout2 : layout_ok p2 buf_len item_base_offset item_record_size.
Hypothesis moved : relocated m1 p1 m2 p2 buf_len.

Local Abbreviation ok := (record_ok m1 p1 buf_len item_base_offset item_record_size).

Lemma load_le_moved (n : nat) (off : Z) :
  0 <= off -> off + Z.of_nat n <= buf_len ->
  load_le m1 (p1 + off) n = load_le m2 (p2 + off) n.
Proof.
  destruct layout1 as [[Hd1 [Hb1 Hw1]] _]. destruct layout2 as [[Hd2 [Hb2 Hw2]] _].
  intros H0 H. rewrite !load_le_bytes by lia.
  assert (Hin : forall k, In k (seq 0 n) -> (k < n)%nat)
    by (intros k Hk; apply in_seq in Hk; lia).
  revert Hin. generalize (seq 0 n) as l. induction l as [|k l IH]; intros Hin;
    [reflexivity|].
  cbn [fold_right]. rewrite IH by (intros j Hj; apply Hin; now right).
  specialize (Hin k (or_introl eq_refl)).
  rewrite <- !Z.add_assoc. rewrite (moved (off + Z.of_nat k)) by lia. reflexivity.
Qed.

Lemma load_bytes_moved (off n : Z) :
  0 <= off -> off + n <= buf_len ->
  load_bytes m1 (ptr_add p1 off) n = load_bytes m2 (ptr_add p2 off) n.
Proof.
  destruct layout1 as [[Hd1 [Hb1 Hw1]] _]. destruct layout2 as [[Hd2 [Hb2 Hw2]] _].
  intros H0 H. unfold load_bytes.
  apply map_ext_in. intros k Hk. apply in_seq in Hk.
  rewrite (ptr_add_small p1 off), (ptr_add_small p2 off) by lia.
  rewrite !ptr_add_small by lia.
  rewrite <- !Z.add_assoc. apply moved. lia.
Qed.

Lemma field_moved (n : nat) (i field : Z) :
  ok i -> 0 <= field -> field + Z.of_nat n <= 44 ->
  load_le m1 (ptr_add (record_ptr p1 item_base_offset item_record_size i) field) n
  = load_le m2 (ptr_add (record_ptr p2 item_base_offset item_record_size i) field) n.
Proof.
  destruct layout1 as [[Hd1 [Hb1 Hw1]] _]. destruct layout2 as [[Hd2 [Hb2 Hw2]] _].
  intros [Hi [Hr _]] H0 H. destruct n as [|n]; [reflexivity|].
  destruct (record_ptr_in_buffer p1 buf_len item_base_offset item_record_size layout1
              i Hi Hr) as [-> Hp].
  destruct (record_ptr_in_buffer p2 buf_len item_base_offset item_record_size layout2
              i Hi Hr) as [-> _].
  rewrite !ptr_add_small by lia. rewrite <- !Z.add_assoc.
  apply load_le_moved; lia.
Qed.

Lemma string_prefix_moved (off_field len_field i n : Z) :
  ok i -> 0 <= off_field -> off_field + 4 <= 44 ->
  span_in_buffer m1 p1 buf_len item_base_offset item_record_size off_field len_field i ->
  n <= load_uint32 m1 (ptr_add (record_ptr p1 item_base_offset item_record_size i)
                               len_field) ->
  load_bytes m1
    (ptr_add p1 (load_uint32 m1
       (ptr_add (record_ptr p1 item_base_offset item_record_size i) off_field))) n
  = load_bytes m2
      (ptr_add p2 (load_uint32 m2
         (ptr_add (record_ptr p2 item_base_offset item_record_size i) off_field))) n.
Proof.
  intros Hok H0 H Hspan Hn. unfold span_in_buffer in Hspan. unfold load_uint32 in *.
  rewrite <- (field_moved 4 i off_field Hok H0) by (simpl; lia).
  pose proof (load_le_range m1 4
    (ptr_add (record_ptr p1 item_base_offset item_record_size i) off_field)).
  apply load_bytes_moved; lia.
Qed.

Lemma string_field_moved (off_field len_field i : Z) :
  ok i -> 0 <= off_field -> off_field + 4 <= 44 -> 0 <= len_field -> len_field + 4 <= 44 ->
  span_in_buffer m1 p1 buf_len item_base_offset item_record_size off_field len_field i ->
  string_field m1 p1 item_base_offset item_record_size off_field len_field i
  = string_field m2 p2 item_base_offset item_record_size off_field len_field i.
Proof.
  intros Hok H0 H H0' H' Hspan. unfold string_field.
  assert (Hlen : load_uint32 m1 (ptr_add (record_ptr p1 item_base_offset item_record_size i)
                                         len_field)
                 = load_uint32 m2 (ptr_add (record_ptr p2 item_base_offset
                                              item_record_size i) len_field))
    by (apply (field_moved 4 i len_field Hok H0'); simpl; lia).
  rewrite <- Hlen.
  apply (string_prefix_moved off_field len_field i); try assumption. lia.
Qed.

Lemma compar_moved (key : Z) (compar : mem -> SortContext -> Z -> Z -> Z)
    (ascending : bool) (a b : Z) :
  select_compar key = Some compar ->
  ok a -> ok b ->
  compar m1 {| ctx_data_ptr := p1; ctx_item_base_offset := item_base_offset;
               ctx_item_record_size := item_record_size; ctx_ascending := ascending |} a b
  = compar m2 {| ctx_data_ptr := p2; ctx_item_base_offset := item_base_offset;
                 ctx_item_record_size := item_record_size; ctx_ascending := ascending |}
           a b.
Proof.
  intros Hsel Ha Hb.
  assert (Hstr : forall off_field len_field,
             0 <= off_field -> off_field + 4 <= 44 -> 0 <= len_field -> len_field + 4 <= 44 ->
             span_in_buffer m1 p1 buf_len item_base_offset item_record_size
                            off_field len_field a ->
             span_in_buffer m1 p1 buf_len item_base_offset item_record_size
                            off_field len_field b ->
             compare_indices_string off_field len_field m1
               {| ctx_data_ptr := p1; ctx_item_base_offset := item_base_offset;
                  ctx_item_record_size := item_record_size; ctx_ascending := ascending |}
               a b
             = compare_indices_string off_field len_field m2
               {| ctx_data_ptr := p2; ctx_item_base_offset := item_base_offset;
                  ctx_item_record_size := item_record_size; ctx_ascending := ascending |}
               a b).
  { intros off_field len_field H0 H H0' H' Hsa Hsb.
    unfold compare_indices_string. rewrite !get_item_ptr_record.
    cbn [ctx_data_ptr ctx_ascending].
    assert (HlenA : load_uint32 m1 (ptr_add (record_ptr p1 item_base_offset
                                               item_record_size a) len_field)
                    = load_uint32 m2 (ptr_add (record_ptr p2 item_base_offset
                                                 item_record_size a) len_field))
      by (apply (field_moved 4 a len_field Ha H0'); simpl; lia).
    assert (HlenB : load_uint32 m1 (ptr_add (record_ptr p1 item_base_offset
                                               item_record_size b) len_field)
                    = load_uint32 m2 (ptr_add (record_ptr p2 item_base_offset
                                                 item_record_size b) len_field))
      by (apply (field_moved 4 b len_field Hb H0'); simpl; lia).
    rewrite <- HlenA, <- HlenB.
    set (lenA := load_uint32 m1 (ptr_add (record_ptr p1 item_base_offset
                                            item_record_size a) len_field)) in *.
    set (lenB := load_uint32 m1 (ptr_add (record_ptr p1 item_base_offset
                                            item_record_size b) len_field)) in *.
    rewrite <- (string_prefix_moved off_field len_field a
                  (if lenA <? lenB then lenA else lenB) Ha H0 H Hsa)
      by (fold lenA; destruct (Z.ltb_spec lenA lenB); lia).
    rewrite <- (string_prefix_moved off_field len_field b
                  (if lenA <? lenB then lenA else lenB) Hb H0 H Hsb)
      by (fold lenB; destruct (Z.ltb_spec lenA lenB); lia).
    reflexivity. }
  unfold select_compar in Hsel.
  destruct (key =? SORT_KEY_NAME).
  { injection Hsel as <-. apply Hstr; try lia; [apply Ha | apply Hb]. }
  destruct (key =? SORT_KEY_PATH).
  { injection Hsel as <-. apply Hstr; try lia; [apply Ha | apply Hb]. }
  destruct (key =? SORT_KEY_SIZE).
  { injection Hsel as <-. unfold compare_indices_size, load_int64.
    rewrite !get_item_ptr_record.
    rewrite (field_moved 8 a 0 Ha), (field_moved 8 b 0 Hb) by (simpl; lia).
    reflexivity. }
  destruct (key =? SORT_KEY_DATE); [|discriminate].
  injection Hsel as <-. unfold compare_indices_date, load_double.
  rewrite !get_item_ptr_record.
  rewrite (field_moved 8 a 8 Ha), (field_moved 8 b 8 Hb) by (simpl; lia).
  reflexivity.
Qed.

End Relocation.

(** X15: offsets in the buffer are relative to [data_ptr], so the results do
    not depend on the address the buffer is mapped at: when the same bytes
    lie at [p1] in one memory and at [p2] in another, and every record an
    operation visits lies in the buffer with its strings, scan, lookup and
    sort give the same results at both addresses. *)
Theorem results_survive_relocation
    (memmem : list byte -> list byte -> option Z)
    (qsort_r : (Z -> Z -> Z) -> list Z -> list Z)
    (m1 m2 : mem) (p1 p2 buf_len item_base_offset item_record_size : Z) :
  qsort_r_contract qsort_r ->
  layout_ok p1 buf_len item_base_offset item_record_size ->
  layout_ok p2 buf_len item_base_offset item_record_size ->
  relocated m1 p1 m2 p2 buf_len ->
  (forall start_index end_index query rb,
     (forall i, start_index <= i < end_index ->
        record_ok m1 p1 buf_len item_base_offset item_record_size i) ->
     perform_search_scan memmem m1 p1 item_base_offset item_record_size
                         start_index end_index query rb
     = perform_search_scan memmem m2 p2 item_base_offset item_record_size
                           start_index end_index query rb)
  /\ (forall count target_path,
        (forall i, 0 <= i < count ->
           record_ok m1 p1 buf_len item_base_offset item_record_size i) ->
        perform_path_lookup m1 p1 item_base_offset item_record_size count target_path
        = perform_path_lookup m2 p2 item_base_offset item_record_size count target_path)
  /\ (forall indices count key ascending,
        (forall i, In i (firstn (Z.to_nat count) indices) ->
           record_ok m1 p1 buf_len item_base_offset item_record_size i) ->
        perform_index_sort qsort_r m1 indices count p1 item_base_offset
                           item_record_size key ascending
        = perform_index_sort qsort_r m2 indices count p2 item_base_offset
                             item_record_size key ascending).
Proof.
  intros Hq Hl1 Hl2 Hm. split; [|split].
  - intros start_index end_index query rb Hok. apply scan_by_names.
    intros i Hi. unfold record_lower_name.
    apply (string_field_moved m1 m2 p1 p2 buf_len item_base_offset item_record_size
             Hl1 Hl2 Hm 36 40 i); try lia; apply Hok; exact Hi.
  - intros count target_path Hok. apply lookup_by_paths.
    intros i Hi. unfold record_path.
    apply (string_field_moved m1 m2 p1 p2 buf_len item_base_offset item_record_size
             Hl1 Hl2 Hm 28 32 i); try lia; apply Hok; exact Hi.
  - intros indices count key ascending Hok. unfold perform_index_sort.
    destruct (select_compar key) as [compar|] eqn:Hsel; [|reflexivity].
    f_equal. apply (qsort_r_local _ Hq). intros a b Ia Ib.
    apply (compar_moved m1 m2 p1 p2 buf_len item_base_offset item_record_size
             Hl1 Hl2 Hm key); auto.
Qed.

Lemma results_survive_relocation_witness :
  perform_search_scan Libc.memmem_bsd Example.memory Example.data_ptr 0 44
                      0 3 Example.eta (fun _ => 0)
  = perform_search_scan Libc.memmem_bsd (Example.mem_at 65536 Example.buffer) 65536 0 44
                        0 3 Example.eta (fun _ => 0).
Proof.
  assert (Hok : forall i, 0 <= i < 3 ->
            record_ok Example.memory Example.data_ptr 161 0 44 i).
  { intros i Hi. assert (Hc : i = 0 \/ i = 1 \/ i = 2) by lia.
    destruct Hc as [-> | [-> | ->]]; unfold record_ok, span_in_buffer;
      repeat split; vm_compute; discriminate. }
  destruct (results_survive_relocation Libc.memmem_bsd Libc.qsort_r_insertion
              Example.memory (Example.mem_at 65536 Example.buffer)
              Example.data_ptr 65536 161 0 44) as [Hscan _].
  - apply qsort_r_insertion_contract.
  - unfold layout_ok, buffer_ok, Example.data_ptr. lia.
  - unfold layout_ok, buffer_ok. lia.
  - intros off Hoff. unfold Example.memory, Example.mem_at, Example.data_ptr.
    change (Z.of_nat (length Example.buffer)) with 161.
    destruct (Z.leb_spec 4096 (4096 + off)); [|lia].
    destruct (Z.ltb_spec (4096 + off) (4096 + 161)); [|lia].
    destruct (Z.leb_spec 65536 (65536 + off)); [|lia].
    destruct (Z.ltb_spec (65536 + off) (65536 + 161)); [|lia].
    cbn [andb]. f_equal. lia.
  - apply Hscan. exact Hok.
Defined.

(** * Scan, then sort *)

(** X16: the output of a scan, handed to the sort with the returned count,
    comes back ordered by the key in the direction asked for and still holds
    exactly the indices of the range whose lowercased name contains the
    query. *)
Theorem sorted_scan_output
    (memmem : list byte -> list byte -> option Z)
    (qsort_r : (Z -> Z -> Z) -> list Z -> list Z) (m : mem)
    (data_ptr item_base_offset item_record_size start_index end_index : Z)
    (query : list byte) (results_buffer : Z -> Z) (key : Z) (ascending : bool) :
  memmem_contract memmem ->
  qsort_r_contract qsort_r ->
  query <> [] ->
  0 <= start_index -> end_index <= 2 ^ 31 ->
  end_index - start_index <= CInt.INT32_MAX ->
  valid_sort_key key ->
  (key = SORT_KEY_DATE ->
   forall i, start_index <= i < end_index ->
     is_nan (record_modified m data_ptr item_base_offset item_record_size i) = false) ->
  let r := perform_search_scan memmem m data_ptr item_base_offset item_record_size
             start_index end_index query results_buffer in
  let sorted := perform_index_sort qsort_r m (scan_output r) (fst r) data_ptr
                  item_base_offset item_record_size key ascending in
  StronglySorted (key_ordered m data_ptr item_base_offset item_record_size key ascending)
                 sorted
  /\ forall i, In i sorted <->
       start_index <= i < end_index /\
       occurs query (record_lower_name m data_ptr item_base_offset item_record_size i).
Proof.
  intros Hm Hq Hne H0 Hend Hsize Hv Hnan.
  destruct (scan_output_hits memmem m data_ptr item_base_offset item_record_size
              start_index end_index query results_buffer H0 Hend Hsize) as [Hcount Hout].
  cbv zeta in *. rewrite Hout, Hcount.
  set (hits := filter _ _) in *.
  assert (Hin : forall i, In i hits <->
            start_index <= i < end_index /\
            occurs query (record_lower_name m data_ptr item_base_offset
                                            item_record_size i)).
  { intros i. unfold hits.
    rewrite filter_In, zrange_In, (scan_hit_occurs _ _ _ _ _ _ _ Hm Hne).
    assert (start_index <= i < start_index + Z.of_nat (Z.to_nat (end_index - start_index))
            <-> start_index <= i < end_index) by lia.
    tauto. }
  split.
  - apply sort_sorted; try assumption.
    intros E i Hi. apply (Hnan E). now apply Hin.
  - intros i. rewrite <- Hin.
    pose proof (sort_whole_perm qsort_r m data_ptr item_base_offset item_record_size
                  key ascending hits Hq) as Hp.
    split; intros Hi.
    + now apply (Permutation_in _ (Permutation_sym Hp)).
    + now apply (Permutation_in _ Hp).
Qed.

Lemma sorted_scan_output_witness :
  let r := perform_search_scan Libc.memmem_bsd Example.memory Example.data_ptr 0 44
             0 3 [x61] (fun _ => 0) in
  let sorted := perform_index_sort Libc.qsort_r_insertion Example.memory
                  (scan_output r) (fst r) Example.data_ptr 0 44 SORT_KEY_DATE true in
  StronglySorted (key_ordered Example.memory Example.data_ptr 0 44 SORT_KEY_DATE true)
                 sorted
  /\ forall i, In i sorted <->
       0 <= i < 3 /\
       occurs [x61] (record_lower_name Example.memory Example.data_ptr 0 44 i).
Proof.
  apply sorted_scan_output.
  - apply memmem_bsd_contract.
  - apply qsort_r_insertion_contract.
  - discriminate.
  - lia.
  - lia.
  - unfold CInt.INT32_MAX. lia.
  - right. right. right. reflexivity.
  - intros _ i Hi. assert (Hc : i = 0 \/ i = 1 \/ i = 2) by lia.
    destruct Hc as [-> | [-> | ->]]; reflexivity.
Defined.

(** X17: on an array whose records carry no NaN modification time when the
    key is Date, the comparator the sort selects is consistent, as a
    comparator handed to [qsort_r] has to be: its sign turns around when the
    arguments are exchanged, and its at-most relation is transitive. *)
Theorem selected_compar_is_consistent (m : mem)
    (data_ptr item_base_offset item_record_size key : Z) (ascending : bool)
    (compar : mem -> SortContext -> Z -> Z -> Z) (indices : list Z) :
  select_compar key = Some compar ->
  (key = SORT_KEY_DATE ->
   no_nan_dates m data_ptr item_base_offset item_record_size indices) ->
  consistent_on
    (compar m {| ctx_data_ptr := data_ptr;
                 ctx_item_base_offset := item_base_offset;
                 ctx_item_record_size := item_record_size;
                 ctx_ascending := ascending |})
    indices.
Proof.
  intros Hsel Hnan.
  now apply (compar_consistent m data_ptr item_base_offset item_record_size ascending key).
Qed.

Lemma selected_compar_is_consistent_witness :
  consistent_on
    (compare_indices_date Example.memory
       {| ctx_data_ptr := Example.data_ptr; ctx_item_base_offset := 0;
          ctx_item_record_size := 44; ctx_ascending := false |})
    [0; 1; 2].
Proof.
  apply (selected_compar_is_consistent Example.memory Example.data_ptr 0 44
           SORT_KEY_DATE false compare_indices_date [0; 1; 2]).
  - reflexivity.
  - intros _ i [<- | [<- | [<- | [ ] ] ] ]; reflexivity.
Defined.
